(** * The tracing engine of kolosys/lumen: identifiers, W3C propagation,
      samplers, span lifecycle and the tracer's pool and export pipeline.

    The Go code of package [trace] is embedded function by function.  Go
    strings are byte strings ([string]), identifiers are byte lists, machine
    integers are [Z] with their wrap-around written out, [float64] is the
    kernel's binary64, and the heap of [*Span] objects is a list indexed by
    location. *)

From Stdlib Require Import ZArith NArith Floats Ascii String.
From Stdlib Require Import Strings.Byte.
From stdpp Require Import base option list strings gmap.

Local Open Scope Z_scope.

(** ** Errors ([trace/errors.go]) *)

Inductive error :=
  | ErrTracerClosed
  | ErrInvalidTraceID
  | ErrInvalidSpanID
  | ErrInvalidContext
  | ErrSamplerRejected
  | ErrExporterFailed.

(** A Go result pair [(v, err)] with [err != nil] exactly in the [Err] case. *)
Inductive result (A : Type) :=
  | Ok (a : A)
  | Err (e : error).
Arguments Ok {A} a.
Arguments Err {A} e.

Definition is_ok {A} (r : result A) : bool :=
  match r with Ok _ => true | Err _ => false end.

#[global] Instance byte_eq_dec : EqDecision byte := Byte.byte_eq_dec.

(** ** [encoding/hex] *)

Module hex.

Definition hextable : string := "0123456789abcdef".

Definition hexdigit (n : N) : ascii :=
  default "0"%char (String.get (N.to_nat n) hextable).

(** The two characters [hextable[b>>4]], [hextable[b&0x0f]] of one byte. *)
Definition encodeByte (b : byte) (rest : string) : string :=
  String (hexdigit (N.shiftr (Byte.to_N b) 4))
    (String (hexdigit (N.land (Byte.to_N b) 15)) rest).

Definition EncodeToString (src : list byte) : string :=
  foldr encodeByte "" src.

(** [reverseHexTable]: both cases of the letters are accepted. *)
Definition fromHexChar (c : ascii) : option N :=
  let n := N_of_ascii c in
  if ((48 <=? n) && (n <=? 57))%N then Some (n - 48)%N
  else if ((97 <=? n) && (n <=? 102))%N then Some (n - 97 + 10)%N
  else if ((65 <=? n) && (n <=? 70))%N then Some (n - 65 + 10)%N
  else None.

Definition byte_of_N (n : N) : byte := default x00 (Byte.of_N n).

(** [DecodeString]: [None] stands for a non-nil error ([ErrLength] on an
    odd length, [InvalidByteError] on a character that is no hex digit). *)
Fixpoint DecodeString (s : string) : option (list byte) :=
  match s with
  | EmptyString => Some []
  | String _ EmptyString => None
  | String p (String q r) =>
      match fromHexChar p, fromHexChar q with
      | Some a, Some b =>
          match DecodeString r with
          | Some bs => Some (byte_of_N (N.lor (N.shiftl a 4) b) :: bs)
          | None => None
          end
      | _, _ => None
      end
  end.

End hex.

(** ** Identifiers ([trace/trace.go]) *)

Definition TraceID := list byte.
Definition SpanID := list byte.

(** The zero values [TraceID{}] and [SpanID{}] of the arrays [[16]byte] and
    [[8]byte]. *)
Definition TraceID_zero : TraceID := replicate 16 x00.
Definition SpanID_zero : SpanID := replicate 8 x00.

Definition TraceID_String (t : TraceID) : string := hex.EncodeToString t.
Definition TraceID_IsValid (t : TraceID) : bool := bool_decide (t ≠ TraceID_zero).

Definition SpanID_String (s : SpanID) : string := hex.EncodeToString s.
Definition SpanID_IsValid (s : SpanID) : bool := bool_decide (s ≠ SpanID_zero).

(** Go's [copy(dst, src)]: the first [min (len dst) (len src)] elements of
    [dst] are overwritten. *)
Definition copy {A} (dst src : list A) : list A :=
  take (length dst) src ++ drop (length src) dst.

(** ** [strings.ToLower] and [strings.TrimSpace]

    Both have an ASCII fast path, transcribed here, and fall back to the
    Unicode tables when they meet a byte [>= utf8.RuneSelf].  The fall-backs
    are kept abstract: nothing below depends on what they return. *)

Class Unicode := {
  (** [strings.Map(unicode.ToLower, s)] *)
  Map_unicode_ToLower : string → string;
  (** [strings.TrimFunc(s, unicode.IsSpace)] *)
  TrimFunc_unicode_IsSpace : string → string;
  (** [strings.TrimRightFunc(s, unicode.IsSpace)] *)
  TrimRightFunc_unicode_IsSpace : string → string
}.

(** An instance to run the definitions with; on ASCII input it is never
    consulted. *)
Definition unicode_untouched : Unicode :=
  {| Map_unicode_ToLower s := s;
     TrimFunc_unicode_IsSpace s := s;
     TrimRightFunc_unicode_IsSpace s := s |}.

Module strings.

(** [c < utf8.RuneSelf] *)
Definition isASCIIbyte (c : ascii) : bool := (N_of_ascii c <? 128)%N.

Fixpoint isASCII (s : string) : bool :=
  match s with
  | EmptyString => true
  | String c r => isASCIIbyte c && isASCII r
  end.

Definition lowerByte (c : ascii) : ascii :=
  let n := N_of_ascii c in
  if ((65 <=? n) && (n <=? 90))%N then ascii_of_N (n + 32) else c.

Fixpoint mapBytes (f : ascii → ascii) (s : string) : string :=
  match s with
  | EmptyString => EmptyString
  | String c r => String (f c) (mapBytes f r)
  end.

Definition ToLower {U : Unicode} (s : string) : string :=
  if isASCII s then mapBytes lowerByte s else Map_unicode_ToLower s.

(** The table [asciiSpace]: tab, newline, vertical tab, form feed,
    carriage return and space. *)
Definition asciiSpace (c : ascii) : bool :=
  let n := N_of_ascii c in ((9 <=? n) && (n <=? 13) || (n =? 32))%N.

(** The first loop of [TrimSpace]: [inl rest] when it stops at an ASCII
    byte that is no space (or at the end), [inr rest] when it meets a
    byte outside ASCII and hands [s[start:]] to [TrimFunc]. *)
Fixpoint trimStart (s : string) : string + string :=
  match s with
  | EmptyString => inl EmptyString
  | String c r =>
      if negb (isASCIIbyte c) then inr s
      else if asciiSpace c then trimStart r
      else inl s
  end.

(** The second loop, from the end: the flag tells that a byte outside
    ASCII was met, in which case the string returned is [s[start:stop]]
    and goes to [TrimRightFunc]. *)
Fixpoint trimStop (s : string) : bool * string :=
  match s with
  | EmptyString => (false, EmptyString)
  | String c r =>
      match trimStop r with
      | (_, EmptyString) =>
          if negb (isASCIIbyte c) then (true, String c EmptyString)
          else if asciiSpace c then (false, EmptyString)
          else (false, String c EmptyString)
      | (fb, r') => (fb, String c r')
      end
  end.

Definition TrimSpace {U : Unicode} (s : string) : string :=
  match trimStart s with
  | inr rest => TrimFunc_unicode_IsSpace rest
  | inl rest =>
      match trimStop rest with
      | (true, t) => TrimRightFunc_unicode_IsSpace t
      | (false, t) => t
      end
  end.

End strings.

(** ** Trace context ([trace/context.go]) *)

Record TraceContext := mkTraceContext {
  tcTraceID : TraceID;
  tcSpanID : SpanID;
  TraceFlags : byte;
  TraceState : string
}.

(** The zero value [var tc TraceContext]. *)
Definition TraceContext_zero : TraceContext :=
  {| tcTraceID := TraceID_zero; tcSpanID := SpanID_zero;
     TraceFlags := x00; TraceState := "" |}.

Definition W3CTraceparentHeader : string := "traceparent".
Definition W3CTracestateHeader : string := "tracestate".
Definition TraceIDHeader : string := "X-Trace-ID".
Definition SpanIDHeader : string := "X-Span-ID".

(** *** The regular expression
    [^([0-9a-f]{2})-([0-9a-f]{32})-([0-9a-f]{16})-([0-9a-f]{2})$] *)

Module traceparentRegex.

(** The character class [[0-9a-f]]. *)
Definition class (c : ascii) : bool :=
  let n := N_of_ascii c in
  ((48 <=? n) && (n <=? 57) || (97 <=? n) && (n <=? 102))%N.

(** The group [([0-9a-f]{n})] at the head of [s]: the text it captures
    and what follows. *)
Fixpoint group (n : nat) (s : string) : option (string * string) :=
  match n with
  | O => Some (EmptyString, s)
  | S n' =>
      match s with
      | EmptyString => None
      | String c r =>
          if class c then
            match group n' r with
            | Some (g, rest) => Some (String c g, rest)
            | None => None
            end
          else None
      end
  end.

Definition dash (s : string) : option string :=
  match s with
  | String "-"%char r => Some r
  | _ => None
  end.

(** [$] without the multi-line flag: the end of the text only. *)
Definition eot (s : string) : option unit :=
  match s with EmptyString => Some () | _ => None end.

(** [FindStringSubmatch]: the four captured groups [matches[1..4]], or
    [None] for the nil slice. *)
Definition FindStringSubmatch (s : string)
    : option (string * string * string * string) :=
  '(m1, s) ← group 2 s;
  s ← dash s;
  '(m2, s) ← group 32 s;
  s ← dash s;
  '(m3, s) ← group 16 s;
  s ← dash s;
  '(m4, s) ← group 2 s;
  _ ← eot s;
  Some (m1, m2, m3, m4).

End traceparentRegex.

Section W3C.
Context {U : Unicode}.

(** [ParseW3CTraceparent] *)
Definition ParseW3CTraceparent (header : string) : result TraceContext :=
  let header := strings.TrimSpace (strings.ToLower header) in
  match traceparentRegex.FindStringSubmatch header with
  | None => Err ErrInvalidContext
  | Some (version, m2, m3, m4) =>
      if negb (String.eqb version "00") then Err ErrInvalidContext else
      let tc := TraceContext_zero in
      match hex.DecodeString m2 with
      | None => Err ErrInvalidTraceID
      | Some traceIDBytes =>
          if negb (length traceIDBytes =? 16)%nat then Err ErrInvalidTraceID else
          let tc := {| tcTraceID := copy (tcTraceID tc) traceIDBytes;
                       tcSpanID := tcSpanID tc;
                       TraceFlags := TraceFlags tc;
                       TraceState := TraceState tc |} in
          match hex.DecodeString m3 with
          | None => Err ErrInvalidSpanID
          | Some spanIDBytes =>
              if negb (length spanIDBytes =? 8)%nat then Err ErrInvalidSpanID else
              let tc := {| tcTraceID := tcTraceID tc;
                           tcSpanID := copy (tcSpanID tc) spanIDBytes;
                           TraceFlags := TraceFlags tc;
                           TraceState := TraceState tc |} in
              match hex.DecodeString m4 with
              | Some [flags0] =>
                  Ok {| tcTraceID := tcTraceID tc;
                        tcSpanID := tcSpanID tc;
                        TraceFlags := flags0;
                        TraceState := TraceState tc |}
              | _ => Err ErrInvalidContext
              end
          end
      end
  end.

End W3C.

(** [fmt.Sprintf("%02x", b)] for a byte: two lower-case hex digits. *)
Definition fmt_02x (b : byte) : string := hex.encodeByte b "".

(** [FormatW3CTraceparent]: [Sprintf("00-%s-%s-%02x", ...)]. *)
Definition FormatW3CTraceparent (tc : TraceContext) : string :=
  "00-" +:+ TraceID_String (tcTraceID tc) +:+ "-" +:+
  SpanID_String (tcSpanID tc) +:+ "-" +:+ fmt_02x (TraceFlags tc).

(** [IsSampled]: [tc.TraceFlags & 0x01 != 0]. *)
Definition IsSampled (tc : TraceContext) : bool :=
  negb (N.land (Byte.to_N (TraceFlags tc)) 1 =? 0)%N.

(** [SetSampled] *)
Definition SetSampled (sampled : bool) (tc : TraceContext) : TraceContext :=
  {| tcTraceID := tcTraceID tc;
     tcSpanID := tcSpanID tc;
     TraceFlags :=
       if sampled then hex.byte_of_N (N.lor (Byte.to_N (TraceFlags tc)) 1)
       else hex.byte_of_N (N.ldiff (Byte.to_N (TraceFlags tc)) 1);
     TraceState := TraceState tc |}.

(** ** [hash/fnv]: the 32-bit FNV-1a hash *)

Module fnv.

Definition offset32 : Z := 2166136261.
Definition prime32 : Z := 16777619.

(** [New32a]: the initial state. *)
Definition New32a : Z := offset32.

(** [Write] of [sum32a]: for each byte, [hash ^= c; hash *= prime32] on
    [uint32]. *)
Definition Write (hash : Z) (data : list byte) : Z :=
  foldl (λ h c, (Z.lxor h (Z.of_N (Byte.to_N c)) * prime32) mod 2 ^ 32)
        hash data.

Definition Sum32 (hash : Z) : Z := hash.

End fnv.

(** ** [float64] to [uint32]

    [float64_trunc] discards the fraction of a finite float (towards zero).
    Go leaves the conversion of a value that does not fit (or of NaN)
    implementation dependent; the low 32 bits of the truncation, and 0 for
    NaN and the infinities, are what amd64 and arm64 return for the values
    that can arise here. *)

Definition float64_trunc (f : float) : Z :=
  match Prim2SF f with
  | S754_finite s m e =>
      let v := if 0 <=? e then Z.pos m * 2 ^ e else Z.pos m / 2 ^ (- e) in
      if s then - v else v
  | _ => 0
  end.

Definition uint32_of_float64 (f : float) : Z := float64_trunc f mod 2 ^ 32.

(** ** Samplers (package [trace]) *)

Record SamplingParams := mkSamplingParams {
  spTraceID : TraceID;
  spName : string;
  spParentID : SpanID
}.

(** The implementations of the interface [Sampler], each with the fields
    of its struct; [counter] is the [atomic.Uint64] of a [RatioSampler]. *)
Inductive Sampler :=
  | AlwaysSampler
  | NeverSampler
  | RatioSampler (ratio : float) (threshold : Z) (counter : Z)
  | TraceIDRatioSampler (threshold : Z)
  | ParentBasedSampler (root : Sampler).

Definition AlwaysSample : Sampler := AlwaysSampler.
Definition NeverSample : Sampler := NeverSampler.

(** The clamping [if ratio < 0 { ratio = 0 }; if ratio > 1 { ratio = 1 }]
    of both ratio constructors. *)
Definition clampRatio (ratio : float) : float :=
  let ratio := if (ratio <? 0)%float then 0%float else ratio in
  if (1 <? ratio)%float then 1%float else ratio.

Definition RatioSample (ratio : float) : Sampler :=
  let ratio := clampRatio ratio in
  RatioSampler ratio (uint32_of_float64 (ratio * 100)%float) 0.

Definition TraceIDRatioSample (ratio : float) : Sampler :=
  let ratio := clampRatio ratio in
  TraceIDRatioSampler (uint32_of_float64 (ratio * 4294967295)%float).

Definition ParentBasedSample (root : Sampler) : Sampler :=
  ParentBasedSampler root.

(** [ShouldSample] returns its verdict and the sampler as the call leaves
    it: only a [RatioSampler] is changed, by [s.counter.Add(1)]. *)
Fixpoint ShouldSample (s : Sampler) (params : SamplingParams) : bool * Sampler :=
  match s with
  | AlwaysSampler => (true, s)
  | NeverSampler => (false, s)
  | RatioSampler ratio threshold counter =>
      let count := (counter + 1) mod 2 ^ 64 in
      (((count mod 100) mod 2 ^ 32) <? threshold,
       RatioSampler ratio threshold count)
  | TraceIDRatioSampler threshold =>
      let h := fnv.Write fnv.New32a (spTraceID params) in
      (fnv.Sum32 h <? threshold, s)
  | ParentBasedSampler root =>
      if SpanID_IsValid (spParentID params) then (true, s)
      else
        let '(verdict, root') := ShouldSample root params in
        (verdict, ParentBasedSampler root')
  end.

(** Successive calls on one sampler instance, first call first. *)
Fixpoint ShouldSampleAll (s : Sampler) (calls : list SamplingParams)
    : list bool * Sampler :=
  match calls with
  | [] => ([], s)
  | params :: calls' =>
      let '(verdict, s') := ShouldSample s params in
      let '(verdicts, s'') := ShouldSampleAll s' calls' in
      (verdict :: verdicts, s'')
  end.

(** ** Spans (package [trace]) *)

Inductive SpanStatus := StatusUnset | StatusOK | StatusError.

Definition SpanStatus_String (s : SpanStatus) : string :=
  match s with
  | StatusOK => "ok"
  | StatusError => "error"
  | StatusUnset => "unset"
  end.

(** A value of Go's type [any], as far as callers of the engine give one;
    the engine stores it and never looks inside. *)
Inductive any :=
  | anyString (s : string)
  | anyInt (n : Z)
  | anyBool (b : bool).

Record Attribute := mkAttribute { Key : string; Value : any }.

Record Event := mkEvent {
  evName : string;
  Timestamp : Z;
  evAttributes : list Attribute
}.

(** A [time.Time]: [None] is the zero value [time.Time{}], [Some ns] an
    instant read from the clock. *)
Definition Time := option Z.

(** A [*Span]: the index of the object in the heap of the state below. *)
Abbreviation loc := nat (only parsing).

(** A [*Tracer]: nil, or the tracer of the state below. *)
Inductive TracerPtr := nilTracer | theTracer.

Record Span := mkSpan {
  tracer : TracerPtr;
  traceID : TraceID;
  spanID : SpanID;
  parentID : SpanID;
  name : string;
  startTime : Time;
  endTime : Time;
  status : SpanStatus;
  statusMsg : string;
  attributes : list Attribute;
  events : list Event;
  sampled : bool;
  noop : bool;
  ended : bool
}.

(** The zero value [Span{}]. *)
Definition Span_zero : Span :=
  {| tracer := nilTracer; traceID := TraceID_zero; spanID := SpanID_zero;
     parentID := SpanID_zero; name := ""; startTime := None;
     endTime := None; status := StatusUnset; statusMsg := "";
     attributes := []; events := []; sampled := false; noop := false;
     ended := false |}.

(** [&Span{noop: true}] *)
Definition Span_noop : Span :=
  {| tracer := nilTracer; traceID := TraceID_zero; spanID := SpanID_zero;
     parentID := SpanID_zero; name := ""; startTime := None;
     endTime := None; status := StatusUnset; statusMsg := "";
     attributes := []; events := []; sampled := false; noop := true;
     ended := false |}.

Definition with_attributes (v : list Attribute) (s : Span) : Span :=
  {| tracer := tracer s; traceID := traceID s; spanID := spanID s;
     parentID := parentID s; name := name s; startTime := startTime s;
     endTime := endTime s; status := status s; statusMsg := statusMsg s;
     attributes := v; events := events s; sampled := sampled s;
     noop := noop s; ended := ended s |}.

Definition with_events (v : list Event) (s : Span) : Span :=
  {| tracer := tracer s; traceID := traceID s; spanID := spanID s;
     parentID := parentID s; name := name s; startTime := startTime s;
     endTime := endTime s; status := status s; statusMsg := statusMsg s;
     attributes := attributes s; events := v; sampled := sampled s;
     noop := noop s; ended := ended s |}.

Definition with_status (v : SpanStatus) (msg : string) (s : Span) : Span :=
  {| tracer := tracer s; traceID := traceID s; spanID := spanID s;
     parentID := parentID s; name := name s; startTime := startTime s;
     endTime := endTime s; status := v; statusMsg := msg;
     attributes := attributes s; events := events s; sampled := sampled s;
     noop := noop s; ended := ended s |}.

Definition with_startTime (v : Time) (s : Span) : Span :=
  {| tracer := tracer s; traceID := traceID s; spanID := spanID s;
     parentID := parentID s; name := name s; startTime := v;
     endTime := endTime s; status := status s; statusMsg := statusMsg s;
     attributes := attributes s; events := events s; sampled := sampled s;
     noop := noop s; ended := ended s |}.

Definition with_endTime (v : Time) (s : Span) : Span :=
  {| tracer := tracer s; traceID := traceID s; spanID := spanID s;
     parentID := parentID s; name := name s; startTime := startTime s;
     endTime := v; status := status s; statusMsg := statusMsg s;
     attributes := attributes s; events := events s; sampled := sampled s;
     noop := noop s; ended := ended s |}.

Definition with_ended (v : bool) (s : Span) : Span :=
  {| tracer := tracer s; traceID := traceID s; spanID := spanID s;
     parentID := parentID s; name := name s; startTime := startTime s;
     endTime := endTime s; status := status s; statusMsg := statusMsg s;
     attributes := attributes s; events := events s; sampled := sampled s;
     noop := noop s; ended := v |}.

Definition with_sampled (v : bool) (s : Span) : Span :=
  {| tracer := tracer s; traceID := traceID s; spanID := spanID s;
     parentID := parentID s; name := name s; startTime := startTime s;
     endTime := endTime s; status := status s; statusMsg := statusMsg s;
     attributes := attributes s; events := events s; sampled := v;
     noop := noop s; ended := ended s |}.

Definition with_tracer_name (t : TracerPtr) (n : string) (s : Span) : Span :=
  {| tracer := t; traceID := traceID s; spanID := spanID s;
     parentID := parentID s; name := n; startTime := startTime s;
     endTime := endTime s; status := status s; statusMsg := statusMsg s;
     attributes := attributes s; events := events s; sampled := sampled s;
     noop := noop s; ended := ended s |}.

Definition with_traceID (v : TraceID) (s : Span) : Span :=
  {| tracer := tracer s; traceID := v; spanID := spanID s;
     parentID := parentID s; name := name s; startTime := startTime s;
     endTime := endTime s; status := status s; statusMsg := statusMsg s;
     attributes := attributes s; events := events s; sampled := sampled s;
     noop := noop s; ended := ended s |}.

Definition with_spanID (v : SpanID) (s : Span) : Span :=
  {| tracer := tracer s; traceID := traceID s; spanID := v;
     parentID := parentID s; name := name s; startTime := startTime s;
     endTime := endTime s; status := status s; statusMsg := statusMsg s;
     attributes := attributes s; events := events s; sampled := sampled s;
     noop := noop s; ended := ended s |}.

Definition with_parentID (v : SpanID) (s : Span) : Span :=
  {| tracer := tracer s; traceID := traceID s; spanID := spanID s;
     parentID := v; name := name s; startTime := startTime s;
     endTime := endTime s; status := status s; statusMsg := statusMsg s;
     attributes := attributes s; events := events s; sampled := sampled s;
     noop := noop s; ended := ended s |}.

(** [SpanOption]: the two constructors the package offers; the fields of a
    span are unexported, so no other package can write one. *)
Inductive SpanOption :=
  | WithAttributes (attrs : list Attribute)
  | WithStartTime (t : Time).

Definition applyOption (s : Span) (opt : SpanOption) : Span :=
  match opt with
  | WithAttributes attrs => with_attributes (attributes s ++ attrs) s
  | WithStartTime t => with_startTime t s
  end.

(** *** The methods that touch the span only

    [now] is what [time.Now()] returns during the call. *)

Definition SetAttribute (key : string) (value : any) (s : Span) : Span :=
  if noop s || ended s then s
  else with_attributes (attributes s ++ [mkAttribute key value]) s.

Definition SetAttributes (attrs : list Attribute) (s : Span) : Span :=
  if noop s || ended s then s
  else with_attributes (attributes s ++ attrs) s.

Definition AddEvent (nm : string) (attrs : list Attribute) (now : Z)
    (s : Span) : Span :=
  if noop s || ended s then s
  else with_events (events s ++ [mkEvent nm now attrs]) s.

Definition SetStatus (st : SpanStatus) (msg : string) (s : Span) : Span :=
  if noop s || ended s then s
  else with_status st msg s.

(** [err] is [None] for a nil error and [Some m] for one whose [Error()]
    is [m]. *)
Definition RecordError (err : option string) (now : Z) (s : Span) : Span :=
  match err with
  | None => s
  | Some m =>
      if noop s || ended s then s
      else
        SetStatus StatusError m
          (AddEvent "exception"
             [mkAttribute "exception.message" (anyString m)] now s)
  end.

(** [reset]: both slices are truncated with [[:0]]. *)
Definition reset (s : Span) : Span :=
  {| tracer := nilTracer; traceID := TraceID_zero; spanID := SpanID_zero;
     parentID := SpanID_zero; name := ""; startTime := None;
     endTime := None; status := StatusUnset; statusMsg := "";
     attributes := take 0 (attributes s); events := take 0 (events s);
     sampled := false; noop := false; ended := false |}.

(** ** Propagation contexts ([context.Context] as the package uses it)

    A context is nil or a chain of bindings, innermost first;
    [context.Background()] is the empty chain.  The two key types of the
    package are unexported, so only [ContextWithSpan] and
    [ContextWithTraceContext] bind them. *)

Inductive ctxKey :=
  | spanContextKey
  | traceContextKey
  | foreignKey (k : nat).

Inductive ctxValue :=
  | valSpan (p : option loc)
  | valTraceContext (p : option TraceContext)
  | valForeign (v : nat).

#[global] Instance ctxKey_eq_dec : EqDecision ctxKey.
Proof. solve_decision. Defined.

Inductive Context :=
  | nilContext
  | valueCtx (bindings : list (ctxKey * ctxValue)).

Definition Background : Context := valueCtx [].

(** [ctx.Value(key)] on a non-nil context. *)
Fixpoint Context_Value (bindings : list (ctxKey * ctxValue)) (key : ctxKey)
    : option ctxValue :=
  match bindings with
  | [] => None
  | (k, v) :: outer =>
      if decide (k = key) then Some v else Context_Value outer key
  end.

(** [context.WithValue]: panics ([None]) on a nil parent. *)
Definition WithValue (parent : Context) (key : ctxKey) (val : ctxValue)
    : option Context :=
  match parent with
  | nilContext => None
  | valueCtx bindings => Some (valueCtx ((key, val) :: bindings))
  end.

Definition ContextWithSpan (ctx : Context) (span : option loc) : option Context :=
  WithValue ctx spanContextKey (valSpan span).

Definition SpanFromContext (ctx : Context) : option loc :=
  match ctx with
  | nilContext => None
  | valueCtx bindings =>
      match Context_Value bindings spanContextKey with
      | Some (valSpan span) => span
      | _ => None
      end
  end.

Definition ContextWithTraceContext (ctx : Context) (tc : option TraceContext)
    : option Context :=
  WithValue ctx traceContextKey (valTraceContext tc).

Definition TraceContextFromContext (ctx : Context) : option TraceContext :=
  match ctx with
  | nilContext => None
  | valueCtx bindings =>
      match Context_Value bindings traceContextKey with
      | Some (valTraceContext tc) => tc
      | _ => None
      end
  end.

(** ** The tracer ([trace/trace.go], [trace/options.go])

    One tracer and the heap of the [Span] objects allocated so far.  The
    model is sequential: a method runs to its end before the next starts,
    and the worker goroutine is the separate step [asyncWorker_step].  What
    two calls do when they overlap in time is not modelled. *)

(** What the tracer does to the outside, in order: [Export l s] is the call
    [t.opts.Exporter.Export] on the object [l], whose fields are [s] at that
    moment; [Put l] is [t.spanPool.Put] of the object [l]. *)
Inductive call :=
  | Export (l : loc) (s : Span)
  | Put (l : loc).

Record Options := mkOptions {
  optSampler : option Sampler;
  AsyncExport : bool;
  AsyncBufferSize : Z
}.

Record State := mkState {
  heap : list Span;
  sampler : Sampler;            (* [t.opts.Sampler] *)
  spanPool : list loc;          (* the objects in [t.spanPool] *)
  closed : bool;                (* [t.closed]; [t.closeOnce] has fired iff it is set *)
  asyncCh : option (list loc);  (* [None]: nil channel; [Some q]: the buffer *)
  asyncCap : nat;               (* [cap(t.asyncCh)] *)
  calls : list call
}.

Definition with_heap (v : list Span) (st : State) : State :=
  {| heap := v; sampler := sampler st; spanPool := spanPool st;
     closed := closed st; asyncCh := asyncCh st; asyncCap := asyncCap st;
     calls := calls st |}.

Definition with_sampler (v : Sampler) (st : State) : State :=
  {| heap := heap st; sampler := v; spanPool := spanPool st;
     closed := closed st; asyncCh := asyncCh st; asyncCap := asyncCap st;
     calls := calls st |}.

Definition with_spanPool (v : list loc) (st : State) : State :=
  {| heap := heap st; sampler := sampler st; spanPool := v;
     closed := closed st; asyncCh := asyncCh st; asyncCap := asyncCap st;
     calls := calls st |}.

Definition with_closed (v : bool) (st : State) : State :=
  {| heap := heap st; sampler := sampler st; spanPool := spanPool st;
     closed := v; asyncCh := asyncCh st; asyncCap := asyncCap st;
     calls := calls st |}.

Definition with_asyncCh (v : option (list loc)) (st : State) : State :=
  {| heap := heap st; sampler := sampler st; spanPool := spanPool st;
     closed := closed st; asyncCh := v; asyncCap := asyncCap st;
     calls := calls st |}.

Definition with_calls (v : list call) (st : State) : State :=
  {| heap := heap st; sampler := sampler st; spanPool := spanPool st;
     closed := closed st; asyncCh := asyncCh st; asyncCap := asyncCap st;
     calls := v |}.

(** [applyDefaults], for the options that the engine reads. *)
Definition applyDefaults (o : Options) : Options :=
  {| optSampler :=
       match optSampler o with None => Some AlwaysSample | some => some end;
     AsyncExport := AsyncExport o;
     AsyncBufferSize :=
       if AsyncBufferSize o =? 0 then 1024 else AsyncBufferSize o |}.

(** [New]; [None] is the panic of [make(chan *Span, n)] on a negative [n]. *)
Definition New (opts : option Options) : option State :=
  let opts := applyDefaults (default (mkOptions None false 0) opts) in
  let t := {| heap := []; sampler := default AlwaysSample (optSampler opts);
              spanPool := []; closed := false; asyncCh := None;
              asyncCap := 0; calls := [] |} in
  if AsyncExport opts then
    if AsyncBufferSize opts <? 0 then None
    else Some {| heap := heap t; sampler := sampler t; spanPool := spanPool t;
                 closed := closed t; asyncCh := Some [];
                 asyncCap := Z.to_nat (AsyncBufferSize opts);
                 calls := calls t |}
  else Some t.

(** A method applied to the object at [l]. *)
Definition on_span (l : loc) (f : Span → Span) (st : State) : State :=
  match heap st !! l with
  | Some s => with_heap (<[l := f s]> (heap st)) st
  | None => st
  end.

Definition Exporter_Export (l : loc) (st : State) : State :=
  match heap st !! l with
  | Some s => with_calls (calls st ++ [Export l s]) st
  | None => st
  end.

Definition spanPool_Put (l : loc) (st : State) : State :=
  with_calls (calls st ++ [Put l]) (with_spanPool (l :: spanPool st) st).

(** What the environment decides during one call of [Start]. *)
Record Env := mkEnv {
  now : Z;                  (* [time.Now()] *)
  pick : option nat;        (* the pooled object [spanPool.Get] returns, by
                               its place in the pool; [None], or a place
                               that does not exist: it calls [New] *)
  randTraceID : list byte;  (* the bytes [rand.Read] delivers for a trace ID *)
  randSpanID : list byte    (* and for a span ID *)
}.

(** [rand.Read(id[:])] on the zero array. *)
Definition generateTraceID (env : Env) : TraceID :=
  copy TraceID_zero (randTraceID env).

Definition generateSpanID (env : Env) : SpanID :=
  copy SpanID_zero (randSpanID env).

(** [getSpan]: [Get] hands out a pooled object, or a new one; [reset]. *)
Definition getSpan (pk : option nat) (st : State) : loc * State :=
  match pk ≫= (λ i, (spanPool st !! i) ≫= (λ l, Some (i, l))) with
  | Some (i, l) => (l, on_span l reset (with_spanPool (delete i (spanPool st)) st))
  | None =>
      let l := length (heap st) in
      (l, with_heap (heap st ++ [reset Span_zero]) st)
  end.

Definition releaseSpan (l : loc) (st : State) : State :=
  spanPool_Put l (on_span l reset st).

(** [exportSpan]: the non-blocking send succeeds when the buffer has room. *)
Definition exportSpan (l : loc) (st : State) : State :=
  let direct := releaseSpan l (Exporter_Export l st) in
  match asyncCh st with
  | Some q =>
      if negb (closed st) then
        if (length q <? asyncCap st)%nat then with_asyncCh (Some (q ++ [l])) st
        else direct
      else direct
  | None => direct
  end.

(** One turn of the loop of [asyncWorker]. *)
Definition asyncWorker_step (st : State) : State :=
  match asyncCh st with
  | Some (l :: q) =>
      releaseSpan l (Exporter_Export l (with_asyncCh (Some q) st))
  | _ => st
  end.

(** The worker emptying the channel once it is closed. *)
Fixpoint asyncWorker_drain (fuel : nat) (st : State) : State :=
  match fuel with
  | O => st
  | S fuel' => asyncWorker_drain fuel' (asyncWorker_step st)
  end.

(** [Close]: [closeOnce] lets the body run on the first call only. *)
Definition Close (st : State) : State :=
  if closed st then st
  else
    let st := with_closed true st in
    match asyncCh st with
    | Some q => asyncWorker_drain (length q) st
    | None => st
    end.

(** [(s *Span) End()]: the compare-and-swap fails iff [ended] is set. *)
Definition End (l : loc) (now : Z) (st : State) : State :=
  match heap st !! l with
  | None => st
  | Some s =>
      if noop s || ended s then st
      else
        let s := with_endTime (Some now) (with_ended true s) in
        let st := with_heap (<[l := s]> (heap st)) st in
        match sampled s, tracer s with
        | true, theTracer => exportSpan l st
        | _, _ => st
        end
  end.

(** The three-way choice of [Start] between the ambient span, the ambient
    trace context and a new trace. *)
Definition inherit (parent : option Span) (tc : option TraceContext)
    (env : Env) (span : Span) : Span :=
  match parent with
  | Some p =>
      if TraceID_IsValid (traceID p) then
        with_parentID (spanID p) (with_traceID (traceID p) span)
      else
        match tc with
        | Some c =>
            if TraceID_IsValid (tcTraceID c) then
              with_parentID (tcSpanID c) (with_traceID (tcTraceID c) span)
            else with_traceID (generateTraceID env) span
        | None => with_traceID (generateTraceID env) span
        end
  | None =>
      match tc with
      | Some c =>
          if TraceID_IsValid (tcTraceID c) then
            with_parentID (tcSpanID c) (with_traceID (tcTraceID c) span)
          else with_traceID (generateTraceID env) span
      | None => with_traceID (generateTraceID env) span
      end
  end.

(** The object behind a pointer the program holds. *)
Definition deref (st : State) (l : loc) : Span :=
  default Span_zero (heap st !! l).

(** [Start]: the state it leaves, and the context and span it returns;
    [None] is the panic of [context.WithValue] on a nil context.  The
    parent is read once [getSpan] has reset the object it hands out: the
    context may still hold a pointer to that very object. *)
Definition Start (ctx : Context) (nm : string) (opts : list SpanOption)
    (env : Env) (st : State) : State * option (Context * loc) :=
  if closed st then
    (with_heap (heap st ++ [Span_noop]) st, Some (ctx, length (heap st)))
  else
    let parent := SpanFromContext ctx in
    let tc := TraceContextFromContext ctx in
    let '(l, st) := getSpan (pick env) st in
    let span := deref st l in
    let span := with_startTime (Some (now env))
                  (with_tracer_name theTracer nm span) in
    let span := inherit (parent ≫= (λ p, heap st !! p)) tc env span in
    let span := with_spanID (generateSpanID env) span in
    let span := foldl applyOption span opts in
    let '(verdict, smp) :=
      ShouldSample (sampler st)
        {| spTraceID := traceID span; spName := nm;
           spParentID := parentID span |} in
    let span := with_sampled verdict span in
    let st := with_sampler smp (with_heap (<[l := span]> (heap st)) st) in
    (st, (λ ctx', (ctx', l)) <$> ContextWithSpan ctx (Some l)).

(** *** Programs over one tracer

    What callers and the worker can do, one call at a time.  A span is named
    by a location, which lets a caller keep using a pointer after [End]. *)

(** The methods that write attributes, events or the status. *)
Inductive mutation :=
  | CallSetAttribute (key : string) (value : any)
  | CallSetAttributes (attrs : list Attribute)
  | CallAddEvent (nm : string) (attrs : list Attribute) (now : Z)
  | CallSetStatus (status : SpanStatus) (msg : string)
  | CallRecordError (err : option string) (now : Z).

Definition mutate (m : mutation) : Span → Span :=
  match m with
  | CallSetAttribute key value => SetAttribute key value
  | CallSetAttributes attrs => SetAttributes attrs
  | CallAddEvent nm attrs now => AddEvent nm attrs now
  | CallSetStatus status msg => SetStatus status msg
  | CallRecordError err now => RecordError err now
  end.

Inductive op :=
  | OpStart (ctx : Context) (nm : string) (opts : list SpanOption) (env : Env)
  | OpMutate (l : loc) (m : mutation)
  | OpEnd (l : loc) (now : Z)
  | OpWorker
  | OpClose.

Definition step (st : State) (o : op) : State :=
  match o with
  | OpStart ctx nm opts env => fst (Start ctx nm opts env st)
  | OpMutate l m => on_span l (mutate m) st
  | OpEnd l now => End l now st
  | OpWorker => asyncWorker_step st
  | OpClose => Close st
  end.

Definition run (st : State) (ops : list op) : State := foldl step st ops.

(** The states a program reaches from a tracer made by [New]. *)
Definition reachable (st : State) : Prop :=
  ∃ opts st0 ops, New opts = Some st0 ∧ st = run st0 ops.

(** The object a call is about. *)
Definition call_loc (c : call) : loc :=
  match c with Export l _ => l | Put l => l end.

(** What holds in every reachable state.  A pooled object is reset in the
    fields that no method writes; a queued one is a sampled span that has
    ended; so a no-op span is in neither, and no object is in both. *)
Definition pooled_ok (s : Span) : Prop :=
  traceID s = TraceID_zero ∧ sampled s = false ∧ noop s = false.

Definition queued_ok (s : Span) : Prop :=
  sampled s = true ∧ ended s = true ∧ noop s = false.

Record wf (st : State) : Prop := mk_wf {
  wf_pool_NoDup : NoDup (spanPool st);
  wf_pool : ∀ l, l ∈ spanPool st →
    ∃ s, heap st !! l = Some s ∧ pooled_ok s;
  wf_queue_NoDup : ∀ q, asyncCh st = Some q → NoDup q;
  wf_queue : ∀ q l, asyncCh st = Some q → l ∈ q →
    ∃ s, heap st !! l = Some s ∧ queued_ok s;
  wf_calls : ∀ c, c ∈ calls st → (call_loc c < length (heap st))%nat
}.

(** ** Propagators (package [trace]) *)

Class Carrier (C : Type) := {
  Carrier_Get : C → string → string;
  Carrier_Set : C → string → string → C;
  Carrier_Keys : C → list string
}.

(** [MapCarrier]: a Go map; a missing key reads as the empty string. *)
#[global] Instance MapCarrier : Carrier (gmap string string) := {|
  Carrier_Get m key := default "" (m !! key);
  Carrier_Set m key value := <[key := value]> m;
  Carrier_Keys m := (map_to_list m).*1
|}.

Section W3CPropagator.
Context {U : Unicode} `{Carrier C}.

(** [Inject]; the span is read in the state [st]. *)
Definition W3CPropagator_Inject (st : State) (ctx : Context) (carrier : C) : C :=
  match SpanFromContext ctx ≫= (λ l, heap st !! l) with
  | None => carrier
  | Some span =>
      if negb (TraceID_IsValid (traceID span)) then carrier
      else
        let tc := {| tcTraceID := traceID span; tcSpanID := spanID span;
                     TraceFlags := x00; TraceState := "" |} in
        let tc := if sampled span then SetSampled true tc else tc in
        Carrier_Set carrier W3CTraceparentHeader (FormatW3CTraceparent tc)
  end.

(** [Extract]; [None] is the panic of [context.WithValue] when a header
    parses and the context is nil. *)
Definition W3CPropagator_Extract (ctx : Context) (carrier : C) : option Context :=
  let traceparent := Carrier_Get carrier W3CTraceparentHeader in
  if String.eqb traceparent "" then Some ctx
  else
    match ParseW3CTraceparent traceparent with
    | Err _ => Some ctx
    | Ok tc =>
        let tc := {| tcTraceID := tcTraceID tc; tcSpanID := tcSpanID tc;
                     TraceFlags := TraceFlags tc;
                     TraceState := Carrier_Get carrier W3CTracestateHeader |} in
        ContextWithTraceContext ctx (Some tc)
    end.

End W3CPropagator.

(** ** What the specification says of the two ratio samplers *)

(** The threshold of the trace-ID sampler in the words of the
    specification: [p * 2^32]. *)
Definition spec_TraceIDRatio_threshold (p : float) : Z :=
  float64_trunc (p * 4294967296)%float.

(** Rounding to the nearest integer, for a float that is not negative. *)
Definition spec_round (f : float) : Z := float64_trunc (f + 0.5)%float.

(** The threshold of the counting sampler in the words of the
    specification: [round(p*100)]. *)
Definition spec_Ratio_threshold (p : float) : Z :=
  spec_round (p * 100)%float.

(** The 32-bit FNV-1a hash of a trace ID, as [ShouldSample] computes it. *)
Definition traceIDHash (t : TraceID) : Z :=
  fnv.Sum32 (fnv.Write fnv.New32a t).

(** ** Auxiliary notions for the proofs *)

(** An ASCII byte that is neither a space nor an upper-case letter. *)
Definition plain (c : ascii) : bool :=
  strings.isASCIIbyte c && negb (strings.asciiSpace c)
  && Ascii.eqb (strings.lowerByte c) c.

Fixpoint all_plain (s : string) : bool :=
  match s with
  | EmptyString => true
  | String c r => plain c && all_plain r
  end.

(** The span that [Start] builds in the object [getSpan] hands out. *)
Definition started (ctx : Context) (nm : string) (opts : list SpanOption)
    (env : Env) (st1 : State) (l : loc) : Span :=
  foldl applyOption
    (with_spanID (generateSpanID env)
       (inherit (SpanFromContext ctx ≫= (λ p, heap st1 !! p))
          (TraceContextFromContext ctx) env
          (with_startTime (Some (now env))
             (with_tracer_name theTracer nm (deref st1 l)))))
    opts.

Definition started_params (nm : string) (span : Span) : SamplingParams :=
  {| spTraceID := traceID span; spName := nm; spParentID := parentID span |}.

(** A step from [st] to [st'] leaves the object [l] alone: its fields
    are the same and no new call is made on it. *)
Definition untouched (l : loc) (st st' : State) : Prop :=
  heap st' !! l = heap st !! l ∧
  ∀ c, c ∈ calls st' → c ∈ calls st ∨ call_loc c ≠ l.

(** A span that no call writes to any more and that the tracer will not take
    back: a no-op span, or a span that has ended, was not sampled (so it is
    never queued or released) and has a valid trace ID (unlike the pooled
    objects). *)
Definition inert (s : Span) : Prop :=
  noop s = true ∨
  (ended s = true ∧ sampled s = false ∧ traceID s ≠ TraceID_zero).

(** The attributes that the options of a [Start] call supply, in order. *)
Definition option_attributes (opts : list SpanOption) : list Attribute :=
  flat_map (λ opt, match opt with
                   | WithAttributes attrs => attrs
                   | WithStartTime _ => []
                   end) opts.

(** A header that [ParseW3CTraceparent] has to refuse: lower-cased and
    trimmed, it does not match the grammar, or its version is not [00]. *)
Definition rejected {U : Unicode} (header : string) : Prop :=
  match traceparentRegex.FindStringSubmatch
          (strings.TrimSpace (strings.ToLower header)) with
  | None => True
  | Some (version, _, _, _) => version ≠ "00"
  end.

(** ** Concrete data for the examples *)

(** The header [00-4bf92f3577b34da6a3ce929d0e0e4736-00f067aa0ba902b7-01]. *)
Definition example_tc : TraceContext :=
  {| tcTraceID := [x4b;xf9;x2f;x35;x77;xb3;x4d;xa6;
                   xa3;xce;x92;x9d;x0e;x0e;x47;x36];
     tcSpanID := [x00;xf0;x67;xaa;x0b;xa9;x02;xb7];
     TraceFlags := x01; TraceState := "" |}.

(** A trace context whose identifiers are the reserved all-zero ones. *)
Definition zero_tc : TraceContext :=
  {| tcTraceID := TraceID_zero; tcSpanID := SpanID_zero;
     TraceFlags := x01; TraceState := "" |}.

Definition zero_header : string :=
  "00-00000000000000000000000000000000-0000000000000000-01".

(** A trace ID whose FNV-1a hash is [0xFFFFFFFF]. *)
Definition ff_traceID : TraceID :=
  [x4b;xf9;x2f;x35;x77;xb3;x4d;xa6;xa3;xce;x92;x02;xc8;x59;x2c;x47].

Definition ff_params : SamplingParams :=
  {| spTraceID := ff_traceID; spName := "op"; spParentID := SpanID_zero |}.

Definition example_params : SamplingParams :=
  {| spTraceID := tcTraceID example_tc; spName := "op";
     spParentID := SpanID_zero |}.

(** The same trace seen from a child span with another name. *)
Definition example_params' : SamplingParams :=
  {| spTraceID := tcTraceID example_tc; spName := "child";
     spParentID := tcSpanID example_tc |}.

(** The tracer that [New(nil)] makes: it samples every span and exports on
    the caller's thread. *)
Definition tracer_default : State :=
  {| heap := []; sampler := AlwaysSample; spanPool := []; closed := false;
     asyncCh := None; asyncCap := 0; calls := [] |}.

(** A tracer that samples nothing. *)
Definition tracer_never : State :=
  {| heap := []; sampler := NeverSample; spanPool := []; closed := false;
     asyncCh := None; asyncCap := 0; calls := [] |}.

(** A tracer that exports through a channel of capacity 2. *)
Definition tracer_async : State :=
  {| heap := []; sampler := AlwaysSample; spanPool := []; closed := false;
     asyncCh := Some []; asyncCap := 2; calls := [] |}.

Definition env0 : Env :=
  {| now := 1000; pick := None;
     randTraceID := [x01;x02;x03;x04;x05;x06;x07;x08;
                     x09;x0a;x0b;x0c;x0d;x0e;x0f;x10];
     randSpanID := [xa1;xa2;xa3;xa4;xa5;xa6;xa7;xa8] |}.

Definition env1 : Env :=
  {| now := 1500; pick := Some 0%nat;
     randTraceID := [x11;x12;x13;x14;x15;x16;x17;x18;
                     x19;x1a;x1b;x1c;x1d;x1e;x1f;x20];
     randSpanID := [xb1;xb2;xb3;xb4;xb5;xb6;xb7;xb8] |}.

(** The random source delivers sixteen zero bytes for the trace ID. *)
Definition env_zero : Env :=
  {| now := 1000; pick := None;
     randTraceID := replicate 16 x00;
     randSpanID := [xa1;xa2;xa3;xa4;xa5;xa6;xa7;xa8] |}.

(** The context [Start] returns for the first span of a tracer. *)
Definition ctx_first : Context :=
  valueCtx [(spanContextKey, valSpan (Some 0%nat))].

(** The header of the specification's example, and the same with version 01. *)
Definition example_header : string :=
  "00-4bf92f3577b34da6a3ce929d0e0e4736-00f067aa0ba902b7-01".

Definition version01_header : string :=
  "01-4bf92f3577b34da6a3ce929d0e0e4736-00f067aa0ba902b7-01".

(** One step of the option monad on a value that is there. *)
Ltac bind_step :=
  change (mbind ?f (Some ?x)) with (f x); cbv beta iota.

(** * Proofs *)

(** ** Hexadecimal text *)

Lemma DecodeString_encodeByte b r :
  hex.DecodeString (hex.encodeByte b r) = cons b <$> hex.DecodeString r.
Proof. destruct b; reflexivity. Qed.

Lemma DecodeString_EncodeToString bs :
  hex.DecodeString (hex.EncodeToString bs) = Some bs.
Proof.
  induction bs as [|b bs IH]; [reflexivity|].
  change (hex.EncodeToString (b :: bs))
    with (hex.encodeByte b (hex.EncodeToString bs)).
  by rewrite DecodeString_encodeByte, IH.
Qed.

Lemma EncodeToString_cons_app b bs rest :
  hex.EncodeToString (b :: bs) +:+ rest
  = hex.encodeByte b (hex.EncodeToString bs +:+ rest).
Proof. reflexivity. Qed.

Lemma group_encodeByte n b s :
  traceparentRegex.group (S (S n)) (hex.encodeByte b s)
  = (λ '(g, rest), (hex.encodeByte b g, rest)) <$> traceparentRegex.group n s.
Proof.
  destruct b; cbn; destruct (traceparentRegex.group n s) as [[g rest]|];
    reflexivity.
Qed.

Lemma group_EncodeToString bs rest :
  traceparentRegex.group (2 * length bs) (hex.EncodeToString bs +:+ rest)
  = Some (hex.EncodeToString bs, rest).
Proof.
  induction bs as [|b bs IH]; [reflexivity|].
  rewrite EncodeToString_cons_app.
  replace (2 * length (b :: bs))%nat with (S (S (2 * length bs))) by (cbn; lia).
  by rewrite group_encodeByte, IH.
Qed.

Lemma group_EncodeToString_len n bs rest :
  length bs = n →
  traceparentRegex.group (2 * n) (hex.EncodeToString bs +:+ rest)
  = Some (hex.EncodeToString bs, rest).
Proof. intros <-. apply group_EncodeToString. Qed.

(** ** Text that [ToLower] and [TrimSpace] leave alone *)

Lemma all_plain_app s t :
  all_plain s = true → all_plain t = true → all_plain (s +:+ t) = true.
Proof.
  intros Hs Ht. induction s as [|c s IH]; [done|].
  change (String c s +:+ t) with (String c (s +:+ t)).
  cbn [all_plain] in *. apply andb_prop in Hs as [-> Hs]. by apply IH.
Qed.

Lemma all_plain_encodeByte b s :
  all_plain (hex.encodeByte b s) = all_plain s.
Proof. destruct b; reflexivity. Qed.

Lemma all_plain_EncodeToString bs : all_plain (hex.EncodeToString bs) = true.
Proof.
  induction bs as [|b bs IH]; [done|].
  change (hex.EncodeToString (b :: bs))
    with (hex.encodeByte b (hex.EncodeToString bs)).
  by rewrite all_plain_encodeByte.
Qed.

Lemma plain_inv c :
  plain c = true →
  strings.isASCIIbyte c = true ∧ strings.asciiSpace c = false ∧
  strings.lowerByte c = c.
Proof.
  unfold plain. intros Hc.
  apply andb_prop in Hc as [Hc Hl]. apply andb_prop in Hc as [Ha Hs].
  apply negb_true_iff in Hs. by apply Ascii.eqb_eq in Hl.
Qed.

Lemma isASCII_plain s : all_plain s = true → strings.isASCII s = true.
Proof.
  induction s as [|c s IH]; [done|].
  cbn [all_plain strings.isASCII]. intros Hs.
  apply andb_prop in Hs as [Hc Hs]. apply plain_inv in Hc as (-> & _ & _).
  by apply IH.
Qed.

Lemma mapBytes_plain s :
  all_plain s = true → strings.mapBytes strings.lowerByte s = s.
Proof.
  induction s as [|c s IH]; [done|].
  cbn [all_plain strings.mapBytes]. intros Hs.
  apply andb_prop in Hs as [Hc Hs]. apply plain_inv in Hc as (_ & _ & ->).
  by rewrite IH.
Qed.

Lemma ToLower_plain {U : Unicode} s : all_plain s = true → strings.ToLower s = s.
Proof.
  intros Hs. unfold strings.ToLower.
  by rewrite isASCII_plain, mapBytes_plain.
Qed.

Lemma trimStart_plain s : all_plain s = true → strings.trimStart s = inl s.
Proof.
  destruct s as [|c s]; [done|]. cbn [all_plain strings.trimStart]. intros Hs.
  apply andb_prop in Hs as [Hc _]. by apply plain_inv in Hc as (-> & -> & _).
Qed.

Lemma trimStop_plain s : all_plain s = true → strings.trimStop s = (false, s).
Proof.
  induction s as [|c s IH]; [done|]. cbn [all_plain strings.trimStop]. intros Hs.
  apply andb_prop in Hs as [Hc Hs]. rewrite (IH Hs).
  apply plain_inv in Hc as (-> & -> & _). by destruct s.
Qed.

Lemma TrimSpace_plain {U : Unicode} s : all_plain s = true → strings.TrimSpace s = s.
Proof.
  intros Hs. unfold strings.TrimSpace.
  by rewrite trimStart_plain, trimStop_plain.
Qed.

Lemma all_plain_Format tc : all_plain (FormatW3CTraceparent tc) = true.
Proof.
  unfold FormatW3CTraceparent, TraceID_String, SpanID_String, fmt_02x.
  repeat apply all_plain_app;
    first [apply all_plain_EncodeToString | by rewrite ?all_plain_encodeByte].
Qed.

(** ** The header that [FormatW3CTraceparent] writes parses back *)

Lemma copy_full {A} (dst src : list A) :
  length src = length dst → copy dst src = src.
Proof.
  intros Hl. unfold copy.
  rewrite <- Hl, firstn_all, drop_ge by lia. apply app_nil_r.
Qed.

Lemma FindStringSubmatch_Format tc :
  length (tcTraceID tc) = 16%nat → length (tcSpanID tc) = 8%nat →
  traceparentRegex.FindStringSubmatch (FormatW3CTraceparent tc)
  = Some ("00", TraceID_String (tcTraceID tc), SpanID_String (tcSpanID tc),
          fmt_02x (TraceFlags tc)).
Proof.
  intros Ht Hs.
  unfold traceparentRegex.FindStringSubmatch, FormatW3CTraceparent,
    TraceID_String, SpanID_String.
  change (traceparentRegex.group 2 ("00-" +:+ ?x))
    with (Some ("00", String "-" x)).
  bind_step. cbn [traceparentRegex.dash]. bind_step.
  change 32%nat with (2 * 16)%nat. rewrite group_EncodeToString_len by done.
  bind_step. change ("-" +:+ ?x) with (String "-" x).
  cbn [traceparentRegex.dash]. bind_step.
  change 16%nat with (2 * 8)%nat. rewrite group_EncodeToString_len by done.
  bind_step. change ("-" +:+ ?x) with (String "-" x).
  cbn [traceparentRegex.dash]. bind_step.
  unfold fmt_02x. rewrite group_encodeByte. reflexivity.
Qed.

Lemma Parse_Format {U : Unicode} tc :
  length (tcTraceID tc) = 16%nat → length (tcSpanID tc) = 8%nat →
  ParseW3CTraceparent (FormatW3CTraceparent tc)
  = Ok {| tcTraceID := tcTraceID tc; tcSpanID := tcSpanID tc;
          TraceFlags := TraceFlags tc; TraceState := "" |}.
Proof.
  intros Ht Hs. unfold ParseW3CTraceparent.
  rewrite ToLower_plain, TrimSpace_plain by apply all_plain_Format.
  rewrite FindStringSubmatch_Format by done.
  change (negb (String.eqb "00" "00")) with false. cbv iota.
  unfold TraceID_String, SpanID_String, fmt_02x.
  rewrite !DecodeString_EncodeToString, DecodeString_encodeByte.
  rewrite Ht, Hs. cbn [Nat.eqb negb fmap option_fmap option_map hex.DecodeString].
  cbn [tcTraceID tcSpanID TraceFlags TraceState TraceContext_zero].
  by rewrite !copy_full.
Qed.

(** ** What the regular expression lets through always decodes *)

Lemma fromHexChar_class c :
  traceparentRegex.class c = true → is_Some (hex.fromHexChar c).
Proof.
  destruct c as [[] [] [] [] [] [] [] []]; intros Hc; vm_compute in Hc;
    first [discriminate Hc | vm_compute; eauto].
Qed.

Lemma group_inv n c s g rest :
  traceparentRegex.group (S n) (String c s) = Some (g, rest) →
  ∃ g', traceparentRegex.class c = true ∧ g = String c g' ∧
        traceparentRegex.group n s = Some (g', rest).
Proof.
  cbn [traceparentRegex.group]. destruct (traceparentRegex.class c); [|done].
  destruct (traceparentRegex.group n s) as [[g' rest']|]; [|done].
  intros [= <- <-]. eauto.
Qed.

Lemma DecodeString_group k : ∀ s g rest,
  traceparentRegex.group (2 * k) s = Some (g, rest) →
  ∃ bs, hex.DecodeString g = Some bs ∧ length bs = k.
Proof.
  induction k as [|k IH]; intros s g rest Hg.
  - cbn in Hg. injection Hg as <- <-. by exists [].
  - replace (2 * S k)%nat with (S (S (2 * k))) in Hg by lia.
    destruct s as [|c1 s]; [done|].
    apply group_inv in Hg as (g1 & Hc1 & -> & Hg).
    destruct s as [|c2 s]; [done|].
    apply group_inv in Hg as (g2 & Hc2 & -> & Hg).
    destruct (IH _ _ _ Hg) as (bs & Hbs & Hl).
    destruct (fromHexChar_class _ Hc1) as [a Ha].
    destruct (fromHexChar_class _ Hc2) as [b Hb].
    cbn [hex.DecodeString]. rewrite Ha, Hb, Hbs.
    eexists. split; [done|]. cbn. by rewrite Hl.
Qed.

Lemma FindStringSubmatch_decodes s m1 m2 m3 m4 :
  traceparentRegex.FindStringSubmatch s = Some (m1, m2, m3, m4) →
  ∃ t sp f,
    hex.DecodeString m2 = Some t ∧ length t = 16%nat ∧
    hex.DecodeString m3 = Some sp ∧ length sp = 8%nat ∧
    hex.DecodeString m4 = Some [f].
Proof.
  unfold traceparentRegex.FindStringSubmatch. intros Hf.
  apply bind_Some in Hf as ([m1' s1] & H1 & Hf).
  apply bind_Some in Hf as (s2 & Hd1 & Hf).
  apply bind_Some in Hf as ([m2' s3] & H2 & Hf).
  apply bind_Some in Hf as (s4 & Hd2 & Hf).
  apply bind_Some in Hf as ([m3' s5] & H3 & Hf).
  apply bind_Some in Hf as (s6 & Hd3 & Hf).
  apply bind_Some in Hf as ([m4' s7] & H4 & Hf).
  apply bind_Some in Hf as ([] & He & Hf).
  injection Hf as <- <- <- <-.
  apply (DecodeString_group 16) in H2 as (t & Ht & Hlt).
  apply (DecodeString_group 8) in H3 as (sp & Hsp & Hlsp).
  apply (DecodeString_group 1) in H4 as (fl & Hfl & Hlfl).
  destruct fl as [|f [|? ?]]; try done.
  by exists t, sp, f.
Qed.

Lemma Parse_rejected {U : Unicode} header :
  rejected header → ParseW3CTraceparent header = Err ErrInvalidContext.
Proof.
  unfold rejected, ParseW3CTraceparent.
  destruct (traceparentRegex.FindStringSubmatch _)
    as [[[[version m2] m3] m4]|]; [|done].
  intros Hv. apply String.eqb_neq in Hv. by rewrite Hv.
Qed.

Lemma Parse_accepted {U : Unicode} header :
  ¬ rejected header → ∃ tc, ParseW3CTraceparent header = Ok tc.
Proof.
  unfold rejected, ParseW3CTraceparent.
  destruct (traceparentRegex.FindStringSubmatch _)
    as [[[[version m2] m3] m4]|] eqn:Hf; [|done].
  intros Hv. destruct (String.eqb_spec version "00") as [->|Hne]; [|done].
  apply FindStringSubmatch_decodes in Hf
    as (t & sp & f & -> & Ht & -> & Hsp & ->).
  rewrite Ht, Hsp. cbn. eauto.
Qed.

Lemma Parse_Err_iff {U : Unicode} header e :
  ParseW3CTraceparent header = Err e ↔ rejected header ∧ e = ErrInvalidContext.
Proof.
  split.
  - intros He. assert (Hr : rejected header).
    { unfold rejected.
      destruct (traceparentRegex.FindStringSubmatch _)
        as [[[[version m2] m3] m4]|] eqn:Hf; [|done].
      intros ->. destruct (Parse_accepted header) as [tc Htc]; [|congruence].
      unfold rejected. rewrite Hf. by intros []. }
    split; [done|]. rewrite (Parse_rejected _ Hr) in He. congruence.
  - intros [Hr ->]. by apply Parse_rejected.
Qed.

Lemma Format_nonempty tc : String.eqb (FormatW3CTraceparent tc) "" = false.
Proof. reflexivity. Qed.

Lemma Extract_absent {U : Unicode} `{Carrier C} ctx (carrier : C) :
  Carrier_Get carrier W3CTraceparentHeader = "" →
  W3CPropagator_Extract ctx carrier = Some ctx.
Proof. unfold W3CPropagator_Extract. by intros ->. Qed.

Lemma Extract_Err {U : Unicode} `{Carrier C} ctx (carrier : C) e :
  ParseW3CTraceparent (Carrier_Get carrier W3CTraceparentHeader) = Err e →
  W3CPropagator_Extract ctx carrier = Some ctx.
Proof.
  unfold W3CPropagator_Extract. intros ->. by destruct (String.eqb _ _).
Qed.

Lemma Extract_Format {U : Unicode} `{Carrier C} bindings (carrier : C) tc :
  length (tcTraceID tc) = 16%nat → length (tcSpanID tc) = 8%nat →
  Carrier_Get carrier W3CTraceparentHeader = FormatW3CTraceparent tc →
  ∃ ctx' tc',
    W3CPropagator_Extract (valueCtx bindings) carrier = Some ctx' ∧
    TraceContextFromContext ctx' = Some tc' ∧
    tcTraceID tc' = tcTraceID tc ∧ tcSpanID tc' = tcSpanID tc.
Proof.
  intros Ht Hs Hget. unfold W3CPropagator_Extract.
  rewrite Hget, Format_nonempty, Parse_Format by done.
  eexists _, _. split; [reflexivity|]. by split.
Qed.

(** ** The claims on the W3C header *)

(** C1.  Round trip: for every trace ID of 16 bytes and span ID of 8 bytes
    (the valid, not all-zero ones among them) and every flags byte, the
    header written by [FormatW3CTraceparent] is parsed without error by
    [ParseW3CTraceparent], which gives back the same trace ID, span ID and
    flags, hence the same sampled flag. *)
Theorem format_parse_roundtrip {U : Unicode} (tc : TraceContext) :
  length (tcTraceID tc) = 16%nat → length (tcSpanID tc) = 8%nat →
  ∃ tc', ParseW3CTraceparent (FormatW3CTraceparent tc) = Ok tc' ∧
         tcTraceID tc' = tcTraceID tc ∧ tcSpanID tc' = tcSpanID tc ∧
         TraceFlags tc' = TraceFlags tc ∧ IsSampled tc' = IsSampled tc.
Proof.
  intros Ht Hs. eexists. split; [by apply Parse_Format|]. done.
Qed.

(** The round trip on the IDs of the specification's example. *)
Lemma format_parse_roundtrip_witness :
  TraceID_IsValid (tcTraceID example_tc) = true ∧
  SpanID_IsValid (tcSpanID example_tc) = true ∧
  ∃ tc', ParseW3CTraceparent (U := unicode_untouched)
           (FormatW3CTraceparent example_tc) = Ok tc' ∧
         tcTraceID tc' = tcTraceID example_tc ∧
         tcSpanID tc' = tcSpanID example_tc ∧
         TraceFlags tc' = TraceFlags example_tc ∧
         IsSampled tc' = IsSampled example_tc.
Proof.
  split; [reflexivity|]. split; [reflexivity|].
  apply (format_parse_roundtrip (U := unicode_untouched) example_tc);
    reflexivity.
Defined.

(** C5.  [Extract] fails open: it returns the incoming context, and never
    an error or a panic, when the [traceparent] header is absent (reads as
    the empty string), and when the header does not parse; the header does
    not parse exactly when, lower-cased and trimmed, it does not match the
    grammar or its version is not [00]. *)
Theorem extract_fail_open {U : Unicode} `{Carrier C} (ctx : Context)
    (carrier : C) :
  let header := Carrier_Get carrier W3CTraceparentHeader in
  (header = "" → W3CPropagator_Extract ctx carrier = Some ctx) ∧
  (rejected header →
     ParseW3CTraceparent header = Err ErrInvalidContext ∧
     W3CPropagator_Extract ctx carrier = Some ctx) ∧
  (∀ e, ParseW3CTraceparent header = Err e →
     rejected header ∧ W3CPropagator_Extract ctx carrier = Some ctx).
Proof.
  intros header. split; [apply Extract_absent|]. split.
  - intros Hr. apply Parse_rejected in Hr. split; [done|].
    by apply Extract_Err with ErrInvalidContext.
  - intros e He. split; [by apply Parse_Err_iff in He as [? _]|].
    by apply Extract_Err with e.
Qed.

(** A header of version 01 on a nil context, and a carrier without
    header. *)
Lemma extract_fail_open_witness :
  W3CPropagator_Extract (U := unicode_untouched) nilContext
    ({[ "traceparent" :=
        "01-4bf92f3577b34da6a3ce929d0e0e4736-00f067aa0ba902b7-01" ]}
       : gmap string string)
  = Some nilContext ∧
  W3CPropagator_Extract (U := unicode_untouched) Background
    (∅ : gmap string string) = Some Background.
Proof.
  split.
  - refine (proj2 (proj1 (proj2 (extract_fail_open _ _)) _)).
    vm_compute. discriminate.
  - refine (proj1 (extract_fail_open _ _) _). reflexivity.
Defined.

(** C10.  [ParseW3CTraceparent] accepts a header whose trace-ID or span-ID
    segment is all zeros: it returns a trace context, not an error, and the
    identifiers of that context are the ones written in the header, so
    [IsValid] is false of the all-zero ones; through [Extract] such a
    trace context enters the propagation context. *)
Theorem parse_accepts_all_zero_ids {U : Unicode} `{Carrier C} :
  ParseW3CTraceparent zero_header = Ok zero_tc ∧
  TraceID_IsValid (tcTraceID zero_tc) = false ∧
  SpanID_IsValid (tcSpanID zero_tc) = false ∧
  (∀ tc, length (tcTraceID tc) = 16%nat → length (tcSpanID tc) = 8%nat →
     ∃ tc', ParseW3CTraceparent (FormatW3CTraceparent tc) = Ok tc' ∧
            TraceID_IsValid (tcTraceID tc') = TraceID_IsValid (tcTraceID tc) ∧
            SpanID_IsValid (tcSpanID tc') = SpanID_IsValid (tcSpanID tc)) ∧
  (∀ bindings (carrier : C),
     Carrier_Get carrier W3CTraceparentHeader = zero_header →
     ∃ ctx' tc',
       W3CPropagator_Extract (valueCtx bindings) carrier = Some ctx' ∧
       TraceContextFromContext ctx' = Some tc' ∧
       TraceID_IsValid (tcTraceID tc') = false ∧
       SpanID_IsValid (tcSpanID tc') = false).
Proof.
  split; [exact (Parse_Format zero_tc eq_refl eq_refl)|].
  split; [reflexivity|]. split; [reflexivity|]. split.
  - intros tc Ht Hs. eexists. split; [by apply Parse_Format|]. done.
  - intros bindings carrier Hget.
    destruct (Extract_Format bindings carrier zero_tc eq_refl eq_refl Hget)
      as (ctx' & tc' & He & Hc & Ht & Hs).
    exists ctx', tc'. by rewrite Ht, Hs.
Qed.

(** The all-zero header extracted into the background context. *)
Lemma parse_accepts_all_zero_ids_witness :
  ∃ ctx' tc',
    W3CPropagator_Extract (U := unicode_untouched) Background
      ({[ "traceparent" := zero_header ]} : gmap string string) = Some ctx' ∧
    TraceContextFromContext ctx' = Some tc' ∧
    TraceID_IsValid (tcTraceID tc') = false ∧
    SpanID_IsValid (tcSpanID tc') = false.
Proof.
  refine (proj2 (proj2 (proj2 (proj2
    (parse_accepts_all_zero_ids (U := unicode_untouched)))))
    [] _ _).
  reflexivity.
Defined.

(** ** Samplers *)

Lemma fnv_Write_range data : ∀ h,
  0 ≤ h < 2 ^ 32 → 0 ≤ fnv.Write h data < 2 ^ 32.
Proof.
  induction data as [|c data IH]; intros h Hh; [done|].
  apply IH. apply Z.mod_pos_bound. lia.
Qed.

Lemma traceIDHash_range t : 0 ≤ traceIDHash t < 2 ^ 32.
Proof. apply fnv_Write_range. by vm_compute. Qed.

Lemma uint32_of_float64_range f : 0 ≤ uint32_of_float64 f < 2 ^ 32.
Proof. apply Z.mod_pos_bound. lia. Qed.

Lemma ShouldSample_TraceIDRatio threshold params :
  ShouldSample (TraceIDRatioSampler threshold) params
  = (traceIDHash (spTraceID params) <? threshold,
     TraceIDRatioSampler threshold).
Proof. reflexivity. Qed.

Lemma ShouldSampleAll_TraceIDRatio threshold calls :
  ShouldSampleAll (TraceIDRatioSampler threshold) calls
  = (map (λ q, traceIDHash (spTraceID q) <? threshold) calls,
     TraceIDRatioSampler threshold).
Proof.
  induction calls as [|q calls IH]; [done|].
  cbn [ShouldSampleAll]. rewrite ShouldSample_TraceIDRatio, IH. done.
Qed.

Lemma ShouldSample_Ratio ratio threshold counter params :
  ShouldSample (RatioSampler ratio threshold counter) params
  = (((counter + 1) mod 2 ^ 64 mod 100) mod 2 ^ 32 <? threshold,
     RatioSampler ratio threshold ((counter + 1) mod 2 ^ 64)).
Proof. reflexivity. Qed.

(** The counter counts the calls, as long as it has not wrapped. *)
Lemma ShouldSampleAll_Ratio_counter ratio threshold calls : ∀ counter,
  0 ≤ counter → counter + Z.of_nat (length calls) < 2 ^ 64 →
  snd (ShouldSampleAll (RatioSampler ratio threshold counter) calls)
  = RatioSampler ratio threshold (counter + Z.of_nat (length calls)).
Proof.
  induction calls as [|q calls IH]; intros counter H0 Hlt.
  - cbn. by rewrite Z.add_0_r.
  - cbn [ShouldSampleAll]. rewrite ShouldSample_Ratio.
    cbn [length] in Hlt. rewrite Nat2Z.inj_succ in Hlt.
    rewrite Z.mod_small by lia.
    specialize (IH (counter + 1)).
    destruct (ShouldSampleAll _ calls) as [verdicts s'] eqn:Hs.
    cbn [snd] in *. rewrite IH by lia. f_equal. cbn [length]. lia.
Qed.

Lemma ltb_1_not_ltb_0 p : (1 <? p)%float = true → (p <? 0)%float = false.
Proof.
  rewrite !ltb_spec.
  change (Prim2SF 1) with (S754_finite false 4503599627370496 (-52)).
  change (Prim2SF 0) with (S754_zero false).
  destruct (Prim2SF p) as [s|s| |s m e]; try done.
  - by destruct s.
  - by destruct s.
Qed.

Lemma clampRatio_below p : (p <? 0)%float = true → clampRatio p = 0%float.
Proof. unfold clampRatio. by intros ->. Qed.

Lemma clampRatio_above p : (1 <? p)%float = true → clampRatio p = 1%float.
Proof.
  intros Hp. unfold clampRatio. by rewrite (ltb_1_not_ltb_0 p Hp), Hp.
Qed.

(** ** The claims on the samplers *)

(** C2, as the code has it.  [TraceIDRatioSample(p).ShouldSample] returns
    true exactly when the 32-bit FNV-1a hash of the trace ID is below the
    threshold [uint32(p * 0xFFFFFFFF)] of the clamped ratio: the ratio is
    scaled by [2^32 - 1], not by [2^32].  Hash and threshold are 32-bit
    values; with [p = 1] the threshold is [0xFFFFFFFF], and a trace ID is
    sampled exactly when its hash is not [0xFFFFFFFF]. *)
Theorem traceid_ratio_should_sample (p : float) (params : SamplingParams) :
  let h := traceIDHash (spTraceID params) in
  let threshold := uint32_of_float64 (clampRatio p * 4294967295)%float in
  (fst (ShouldSample (TraceIDRatioSample p) params) = true ↔ h < threshold) ∧
  0 ≤ h < 2 ^ 32 ∧ 0 ≤ threshold < 2 ^ 32 ∧
  TraceIDRatioSample 1 = TraceIDRatioSampler 4294967295 ∧
  (fst (ShouldSample (TraceIDRatioSample 1) params) = true ↔ h ≠ 4294967295).
Proof.
  intros h threshold.
  pose proof (traceIDHash_range (spTraceID params)) as Hh. fold h in Hh.
  split; [|split; [done|split; [apply uint32_of_float64_range|split]]].
  - change (TraceIDRatioSample p) with (TraceIDRatioSampler threshold).
    rewrite ShouldSample_TraceIDRatio. cbn [fst]. apply Z.ltb_lt.
  - reflexivity.
  - change (TraceIDRatioSample 1) with (TraceIDRatioSampler 4294967295).
    rewrite ShouldSample_TraceIDRatio. cbn [fst]. fold h.
    rewrite Z.ltb_lt. change (2 ^ 32) with 4294967296 in Hh. lia.
Qed.

(** C2, counterexample.  With [p = 1] the specification's threshold
    [p * 2^32] lies above every 32-bit hash, so every trace ID should be
    sampled; the valid trace ID [4bf92f3577b34da6a3ce9202c8592c47] hashes
    to [0xFFFFFFFF] and is not. *)
Lemma traceid_ratio_threshold_counterexample :
  TraceID_IsValid (spTraceID ff_params) = true ∧
  traceIDHash (spTraceID ff_params) = 4294967295 ∧
  (traceIDHash (spTraceID ff_params) <? spec_TraceIDRatio_threshold 1) = true ∧
  fst (ShouldSample (TraceIDRatioSample 1) ff_params) = false.
Proof. repeat apply conj; vm_compute; reflexivity. Qed.

(** C9.  The verdict of a trace-ID sampler is a function of the ratio and
    the trace ID alone: a call leaves the instance as it was, and two
    calls with the same trace ID agree, whatever the other fields of the
    parameters, whatever calls came before, on one instance or on two
    instances made with the same ratio. *)
Theorem traceid_ratio_deterministic (p : float)
    (before before' : list SamplingParams) (params params' : SamplingParams) :
  spTraceID params = spTraceID params' →
  snd (ShouldSampleAll (TraceIDRatioSample p) before) = TraceIDRatioSample p ∧
  fst (ShouldSample (snd (ShouldSampleAll (TraceIDRatioSample p) before)) params)
  = fst (ShouldSample (snd (ShouldSampleAll (TraceIDRatioSample p) before')) params').
Proof.
  intros Ht. unfold TraceIDRatioSample.
  rewrite !ShouldSampleAll_TraceIDRatio. cbn [snd]. split; [done|].
  rewrite !ShouldSample_TraceIDRatio. cbn [fst]. by rewrite Ht.
Qed.

(** One trace seen from a root span after two other calls, and from a
    child span on a new instance. *)
Lemma traceid_ratio_deterministic_witness :
  snd (ShouldSampleAll (TraceIDRatioSample 0.5) [ff_params; example_params])
  = TraceIDRatioSample 0.5 ∧
  fst (ShouldSample
         (snd (ShouldSampleAll (TraceIDRatioSample 0.5)
                 [ff_params; example_params])) example_params)
  = fst (ShouldSample
           (snd (ShouldSampleAll (TraceIDRatioSample 0.5) []))
           example_params').
Proof.
  apply (traceid_ratio_deterministic 0.5 [ff_params; example_params] []
           example_params example_params').
  reflexivity.
Defined.

(** C6, as the code has it.  On a sampler made by [RatioSample(p)] the
    counter counts the calls, the first call seeing 1, and the k-th call,
    for k below 2^64 where the counter wraps, returns true exactly when
    [k mod 100] is below [uint32(p * 100)] of the clamped ratio: the product
    is truncated, not rounded.  A ratio below 0 gives the sampler of 0, a
    ratio above 1 the sampler of 1. *)
Theorem ratio_sampler_kth_call (p : float) (before : list SamplingParams)
    (params : SamplingParams) :
  let k := Z.of_nat (length before) + 1 in
  let threshold := uint32_of_float64 (clampRatio p * 100)%float in
  k < 2 ^ 64 →
  snd (ShouldSampleAll (RatioSample p) before)
  = RatioSampler (clampRatio p) threshold (k - 1) ∧
  snd (ShouldSample (snd (ShouldSampleAll (RatioSample p) before)) params)
  = RatioSampler (clampRatio p) threshold k ∧
  fst (ShouldSample (snd (ShouldSampleAll (RatioSample p) before)) params)
  = (k mod 100 <? threshold) ∧
  ((p <? 0)%float = true → RatioSample p = RatioSample 0) ∧
  ((1 <? p)%float = true → RatioSample p = RatioSample 1).
Proof.
  intros k threshold Hk.
  change (RatioSample p) with (RatioSampler (clampRatio p) threshold 0).
  rewrite ShouldSampleAll_Ratio_counter by (unfold k in Hk; lia).
  rewrite Z.add_0_l. replace (k - 1) with (Z.of_nat (length before)) by (unfold k; lia).
  split; [done|]. rewrite ShouldSample_Ratio. cbn [fst snd]. fold k.
  rewrite (Z.mod_small k) by (unfold k; lia).
  split; [done|]. split.
  - rewrite (Z.mod_small (k mod 100)); [done|].
    pose proof (Z.mod_pos_bound k 100 ltac:(lia)).
    change (2 ^ 32) with 4294967296. lia.
  - split; intros Hp; unfold RatioSample; subst threshold.
    + by rewrite (clampRatio_below p Hp).
    + by rewrite (clampRatio_above p Hp).
Qed.

(** The 18th call of a sampler of ratio 0.1875, and the clamping of 7. *)
Lemma ratio_sampler_kth_call_witness :
  fst (ShouldSample
         (snd (ShouldSampleAll (RatioSample 0.1875) (replicate 17 example_params)))
         example_params)
  = (18 mod 100 <? 18) ∧
  RatioSample 7 = RatioSample 1.
Proof.
  pose proof (ratio_sampler_kth_call 0.1875 (replicate 17 example_params)
                example_params eq_refl) as (_ & _ & Hv & _).
  pose proof (ratio_sampler_kth_call 7 [] example_params eq_refl)
    as (_ & _ & _ & _ & Hc).
  split; [exact Hv | exact (Hc eq_refl)].
Defined.

(** C6, counterexample.  With [p = 0.1875] the product [p * 100] is 18.75,
    which rounds to 19: by the specification the 18th call should return
    true.  The code truncates to 18 and the 18th call returns false. *)
Lemma ratio_sampler_round_counterexample :
  spec_Ratio_threshold 0.1875 = 19 ∧
  (18 mod 100 <? spec_Ratio_threshold 0.1875) = true ∧
  RatioSample 0.1875 = RatioSampler 0.1875 18 0 ∧
  fst (ShouldSample
         (snd (ShouldSampleAll (RatioSample 0.1875) (replicate 17 example_params)))
         example_params) = false.
Proof. repeat apply conj; vm_compute; reflexivity. Qed.

(** ** Spans: what the writing methods leave alone *)

Lemma mutate_frozen m s : noop s || ended s = true → mutate m s = s.
Proof.
  intros Hf.
  destruct m as [| | | |[err|]]; cbn;
    unfold SetAttribute, SetAttributes, AddEvent, SetStatus, RecordError;
    by rewrite ?Hf.
Qed.

Lemma mutate_fields m s :
  tracer (mutate m s) = tracer s ∧ traceID (mutate m s) = traceID s ∧
  spanID (mutate m s) = spanID s ∧ parentID (mutate m s) = parentID s ∧
  sampled (mutate m s) = sampled s ∧ noop (mutate m s) = noop s ∧
  ended (mutate m s) = ended s ∧ endTime (mutate m s) = endTime s.
Proof.
  destruct m as [| | | |[err|]]; cbn;
    unfold SetAttribute, SetAttributes, AddEvent, SetStatus, RecordError;
    destruct (noop s || ended s) eqn:Hf; cbn; rewrite ?Hf; done.
Qed.

Lemma mutate_pooled_ok m s : pooled_ok s → pooled_ok (mutate m s).
Proof.
  destruct (mutate_fields m s) as (_ & Ht & _ & _ & Hs & Hn & _).
  unfold pooled_ok. by rewrite Ht, Hs, Hn.
Qed.

Lemma mutate_queued_ok m s : queued_ok s → queued_ok (mutate m s).
Proof.
  destruct (mutate_fields m s) as (_ & _ & _ & _ & Hs & Hn & He & _).
  unfold queued_ok. by rewrite Hs, Hn, He.
Qed.

Lemma pooled_ok_reset s : pooled_ok (reset s).
Proof. done. Qed.

Lemma pooled_not_queued s : pooled_ok s → queued_ok s → False.
Proof. intros (_ & Hs & _) (Hs' & _). congruence. Qed.

(** ** The invariant is kept by every step *)

Lemma wf_update st l s' :
  wf st → (l < length (heap st))%nat →
  (l ∈ spanPool st → pooled_ok s') →
  (∀ q, asyncCh st = Some q → l ∈ q → queued_ok s') →
  wf (with_heap (<[l := s']> (heap st)) st).
Proof.
  intros [Hnd Hp Hqnd Hq Hc] Hl Hps Hqs. split; cbn.
  - done.
  - intros l' Hl'. destruct (decide (l' = l)) as [->|Hne].
    + exists s'. rewrite list_lookup_insert_eq by done. eauto.
    + rewrite list_lookup_insert_ne by done. eauto.
  - done.
  - intros q l' Hch Hl'. destruct (decide (l' = l)) as [->|Hne].
    + exists s'. rewrite list_lookup_insert_eq by done. eauto.
    + rewrite list_lookup_insert_ne by done. eauto.
  - intros c Hc'. rewrite length_insert. eauto.
Qed.

Lemma wf_on_span st l f :
  wf st →
  (∀ s, pooled_ok s → pooled_ok (f s)) →
  (∀ s, queued_ok s → queued_ok (f s)) →
  wf (on_span l f st).
Proof.
  intros Hwf Hfp Hfq. unfold on_span.
  destruct (heap st !! l) as [s|] eqn:Hl; [|done].
  apply wf_update; [done|by eapply lookup_lt_Some| |].
  - intros Hin. destruct (wf_pool st Hwf l Hin) as (s0 & Hs0 & Hok).
    apply Hfp. congruence.
  - intros q Hch Hin. destruct (wf_queue st Hwf q l Hch Hin) as (s0 & Hs0 & Hok).
    apply Hfq. congruence.
Qed.

Lemma wf_Export st l : wf st → wf (Exporter_Export l st).
Proof.
  intros [Hnd Hp Hqnd Hq Hc]. unfold Exporter_Export.
  destruct (heap st !! l) as [s|] eqn:Hl; [|done].
  split; cbn; try done.
  intros c [Hin| ->%list_elem_of_singleton]%elem_of_app; [eauto|].
  by eapply lookup_lt_Some.
Qed.

Lemma wf_Put st l s :
  wf st → heap st !! l = Some s → pooled_ok s → l ∉ spanPool st →
  wf (spanPool_Put l st).
Proof.
  intros [Hnd Hp Hqnd Hq Hc] Hl Hok Hnin. split; cbn; try done.
  - by constructor.
  - intros l' [->|Hin]%elem_of_cons; eauto.
  - intros c [Hin| ->%list_elem_of_singleton]%elem_of_app; [eauto|].
    by eapply lookup_lt_Some.
Qed.

Lemma on_span_Some st l f s :
  heap st !! l = Some s →
  on_span l f st = with_heap (<[l := f s]> (heap st)) st.
Proof. unfold on_span. by intros ->. Qed.

Lemma wf_releaseSpan st l s :
  wf st → heap st !! l = Some s → l ∉ spanPool st →
  (∀ q, asyncCh st = Some q → l ∉ q) →
  wf (releaseSpan l st).
Proof.
  intros Hwf Hl Hnp Hnq. unfold releaseSpan.
  rewrite (on_span_Some _ _ _ _ Hl).
  apply wf_Put with (reset s); cbn; try done.
  - apply wf_update; [done|by eapply lookup_lt_Some|done|].
    intros q Hch Hin. by destruct (Hnq q Hch).
  - apply list_lookup_insert_eq. by eapply lookup_lt_Some.
Qed.

Lemma Export_heap st l : heap (Exporter_Export l st) = heap st.
Proof. unfold Exporter_Export. by destruct (heap st !! l). Qed.

Lemma Export_spanPool st l : spanPool (Exporter_Export l st) = spanPool st.
Proof. unfold Exporter_Export. by destruct (heap st !! l). Qed.

Lemma Export_asyncCh st l : asyncCh (Exporter_Export l st) = asyncCh st.
Proof. unfold Exporter_Export. by destruct (heap st !! l). Qed.

Lemma wf_release_after_Export st l s :
  wf st → heap st !! l = Some s → l ∉ spanPool st →
  (∀ q, asyncCh st = Some q → l ∉ q) →
  wf (releaseSpan l (Exporter_Export l st)).
Proof.
  intros Hwf Hl Hnp Hnq. apply wf_releaseSpan with s.
  - by apply wf_Export.
  - by rewrite Export_heap.
  - by rewrite Export_spanPool.
  - by rewrite Export_asyncCh.
Qed.

Lemma queued_not_pooled st l s :
  wf st → heap st !! l = Some s → queued_ok s → l ∉ spanPool st.
Proof.
  intros Hwf Hl Hok Hin.
  destruct (wf_pool st Hwf l Hin) as (s0 & Hs0 & Hp).
  replace s0 with s in Hp by congruence. by apply (pooled_not_queued s).
Qed.

Lemma wf_enqueue st q l s :
  wf st → asyncCh st = Some q → heap st !! l = Some s → queued_ok s →
  l ∉ q → wf (with_asyncCh (Some (q ++ [l])) st).
Proof.
  intros [Hnd Hp Hqnd Hq Hc] Hch Hl Hok Hnin. split; cbn; try done.
  - intros q' [= <-]. apply NoDup_app. split; [eauto|]. split.
    + intros x Hx ->%list_elem_of_singleton. done.
    + apply NoDup_singleton.
  - intros q' l' [= <-] [Hin| ->%list_elem_of_singleton]%elem_of_app; eauto.
Qed.

Lemma wf_exportSpan st l s :
  wf st → heap st !! l = Some s → queued_ok s →
  (∀ q, asyncCh st = Some q → l ∉ q) →
  wf (exportSpan l st).
Proof.
  intros Hwf Hl Hok Hnq.
  assert (Hd : wf (releaseSpan l (Exporter_Export l st))).
  { apply wf_release_after_Export with s; try done.
    by eapply queued_not_pooled. }
  unfold exportSpan. destruct (asyncCh st) as [q|] eqn:Hch; [|done].
  destruct (negb (closed st)); [|done].
  destruct (length q <? asyncCap st)%nat; [|done].
  apply wf_enqueue with s; eauto.
Qed.

Lemma wf_End st l now : wf st → wf (End l now st).
Proof.
  intros Hwf. unfold End.
  destruct (heap st !! l) as [s|] eqn:Hl; [|done].
  destruct (noop s || ended s) eqn:Hf; [done|].
  apply orb_false_elim in Hf as [Hn He].
  assert (Hnq : ∀ q, asyncCh st = Some q → l ∉ q).
  { intros q Hch Hin.
    destruct (wf_queue st Hwf q l Hch Hin) as (s0 & Hs0 & _ & He0 & _).
    congruence. }
  set (s' := with_endTime (Some now) (with_ended true s)).
  assert (Hwf' : wf (with_heap (<[l:=s']> (heap st)) st)).
  { apply wf_update; [done|by eapply lookup_lt_Some| |].
    - intros Hin. destruct (wf_pool st Hwf l Hin) as (s0 & Hs0 & Hok).
      replace s0 with s in Hok by congruence. exact Hok.
    - intros q Hch Hin. by destruct (Hnq q Hch). }
  destruct (sampled s') eqn:Hs; [|done].
  destruct (tracer s') eqn:Ht; [done|].
  apply wf_exportSpan with s'; try done.
  cbn. apply list_lookup_insert_eq. by eapply lookup_lt_Some.
Qed.

Lemma wf_asyncWorker_step st : wf st → wf (asyncWorker_step st).
Proof.
  intros Hwf. unfold asyncWorker_step.
  destruct (asyncCh st) as [[|l q]|] eqn:Hch; try done.
  destruct (wf_queue st Hwf _ l Hch) as (s & Hl & Hok); [left|].
  pose proof (wf_queue_NoDup st Hwf _ Hch) as [Hnin Hnd]%NoDup_cons.
  assert (Hwf' : wf (with_asyncCh (Some q) st)).
  { destruct Hwf as [Hnd' Hp Hqnd Hq Hc]. split; cbn; try done.
    - by intros q' [= <-].
    - intros q' l' [= <-] Hin. apply (Hq (l :: q)); [done|by right]. }
  apply wf_release_after_Export with s; try done.
  - by apply (queued_not_pooled _ l s).
  - cbn. by intros q' [= <-].
Qed.

Lemma wf_asyncWorker_drain fuel : ∀ st, wf st → wf (asyncWorker_drain fuel st).
Proof.
  induction fuel as [|fuel IH]; intros st Hwf; [done|].
  cbn. by apply IH, wf_asyncWorker_step.
Qed.

Lemma wf_with_closed st b : wf st → wf (with_closed b st).
Proof. by intros []. Qed.

Lemma wf_with_sampler st smp : wf st → wf (with_sampler smp st).
Proof. by intros []. Qed.

Lemma wf_Close st : wf st → wf (Close st).
Proof.
  intros Hwf. unfold Close. destruct (closed st); [done|].
  cbn. destruct (asyncCh st); [|by apply wf_with_closed].
  by apply wf_asyncWorker_drain, wf_with_closed.
Qed.

Lemma wf_alloc st s : wf st → wf (with_heap (heap st ++ [s]) st).
Proof.
  intros [Hnd Hp Hqnd Hq Hc]. split; cbn; try done.
  - intros l Hin. destruct (Hp l Hin) as (s0 & Hs0 & Hok).
    exists s0. split; [|done]. by apply lookup_app_l_Some.
  - intros q l Hch Hin. destruct (Hq q l Hch Hin) as (s0 & Hs0 & Hok).
    exists s0. split; [|done]. by apply lookup_app_l_Some.
  - intros c Hin. rewrite length_app. specialize (Hc c Hin). lia.
Qed.

(** *** [getSpan] and [Start] *)

Lemma reset_zero s : reset s = Span_zero.
Proof. reflexivity. Qed.

(** What [getSpan] hands out: a reset object that is neither pooled nor
    queued any more; it was pooled before, or it is new. *)
Lemma getSpan_spec pk st l st1 :
  wf st → getSpan pk st = (l, st1) →
  wf st1 ∧ heap st1 !! l = Some Span_zero ∧
  (l ∉ spanPool st1) ∧ (∀ q, asyncCh st1 = Some q → l ∉ q) ∧
  calls st1 = calls st ∧ sampler st1 = sampler st ∧
  closed st1 = closed st ∧ asyncCh st1 = asyncCh st ∧
  asyncCap st1 = asyncCap st ∧
  (∀ l', l' ≠ l → (l' < length (heap st))%nat →
         heap st1 !! l' = heap st !! l') ∧
  ((l < length (heap st))%nat → ∃ s, heap st !! l = Some s ∧ pooled_ok s) ∧
  (length (heap st) ≤ length (heap st1))%nat ∧
  (∀ l', l' ∈ spanPool st1 → l' ∈ spanPool st).
Proof.
  intros Hwf. unfold getSpan.
  destruct (mbind _ pk) as [[i l0]|] eqn:Hpk.
  - apply bind_Some in Hpk as (i' & -> & Hpk).
    apply bind_Some in Hpk as (l' & Hi & [= <- <-]).
    intros [= <- <-].
    assert (Hin : l' ∈ spanPool st) by (by eapply list_elem_of_lookup_2).
    destruct (wf_pool st Hwf l' Hin) as (s & Hl & Hok).
    assert (Hnq : ∀ q, asyncCh st = Some q → l' ∉ q).
    { intros q Hch Hq.
      destruct (wf_queue st Hwf q l' Hch Hq) as (s' & Hl' & Hok').
      replace s' with s in Hok' by congruence.
      by apply (pooled_not_queued s). }
    assert (Hnp : l' ∉ delete i' (spanPool st)).
    { pose proof (wf_pool_NoDup st Hwf) as Hnd.
      rewrite <- (take_drop_middle _ _ _ Hi) in Hnd.
      apply NoDup_app in Hnd as (Hnd1 & Hd & Hnd2).
      apply NoDup_cons in Hnd2 as [Hnd2 _].
      rewrite delete_take_drop. intros [H1|H2]%elem_of_app.
      - apply (Hd _ H1). left.
      - done. }
    assert (Hsub : ∀ x, x ∈ delete i' (spanPool st) → x ∈ spanPool st).
    { intros x Hx. eapply elem_of_sublist; [done|apply sublist_delete]. }
    assert (Hwf0 : wf (with_spanPool (delete i' (spanPool st)) st)).
    { destruct Hwf as [Hnd Hp Hqnd Hq Hc]. split; cbn; try done.
      - eapply sublist_NoDup; [done|apply sublist_delete].
      - intros x Hx. apply Hp, Hsub, Hx. }
    rewrite (on_span_Some (with_spanPool _ st) l' reset s Hl). cbn.
    split; [|repeat split; try done].
    + apply (wf_update (with_spanPool _ st)); cbn; try done.
      * by eapply lookup_lt_Some.
      * intros q Hch Hq. by destruct (Hnq q Hch).
    + apply list_lookup_insert_eq. by eapply lookup_lt_Some.
    + intros l'' Hne _. by apply list_lookup_insert_ne.
    + eauto.
    + by rewrite length_insert.
  - intros [= <- <-]. cbn. split; [|repeat split; try done].
    + by apply wf_alloc.
    + by apply list_lookup_middle.
    + intros Hin. destruct (wf_pool st Hwf _ Hin) as (s & Hl%lookup_lt_Some & _).
      lia.
    + intros q Hch Hin.
      destruct (wf_queue st Hwf q _ Hch Hin) as (s & Hl%lookup_lt_Some & _).
      lia.
    + intros l' _ Hlt. by apply lookup_app_l.
    + lia.
    + rewrite length_app. lia.
Qed.

Lemma applyOption_fields s opt :
  tracer (applyOption s opt) = tracer s ∧
  traceID (applyOption s opt) = traceID s ∧
  spanID (applyOption s opt) = spanID s ∧
  parentID (applyOption s opt) = parentID s ∧
  sampled (applyOption s opt) = sampled s ∧
  noop (applyOption s opt) = noop s ∧ ended (applyOption s opt) = ended s.
Proof. by destruct opt. Qed.

Lemma foldl_applyOption_fields opts : ∀ s,
  tracer (foldl applyOption s opts) = tracer s ∧
  traceID (foldl applyOption s opts) = traceID s ∧
  spanID (foldl applyOption s opts) = spanID s ∧
  parentID (foldl applyOption s opts) = parentID s ∧
  sampled (foldl applyOption s opts) = sampled s ∧
  noop (foldl applyOption s opts) = noop s ∧
  ended (foldl applyOption s opts) = ended s.
Proof.
  induction opts as [|opt opts IH]; intros s; [done|].
  cbn [foldl].
  destruct (IH (applyOption s opt)) as (-> & -> & -> & -> & -> & -> & ->).
  apply applyOption_fields.
Qed.

Lemma inherit_fields parent tc env s :
  tracer (inherit parent tc env s) = tracer s ∧
  spanID (inherit parent tc env s) = spanID s ∧
  sampled (inherit parent tc env s) = sampled s ∧
  noop (inherit parent tc env s) = noop s ∧
  ended (inherit parent tc env s) = ended s.
Proof.
  unfold inherit.
  destruct parent as [p|]; [destruct (TraceID_IsValid (traceID p))|];
    try done; (destruct tc as [c|]; [destruct (TraceID_IsValid (tcTraceID c))|]);
    done.
Qed.

Lemma Start_open ctx nm opts env st l st1 :
  closed st = false → getSpan (pick env) st = (l, st1) →
  let span := started ctx nm opts env st1 l in
  let verdict := ShouldSample (sampler st1) (started_params nm span) in
  Start ctx nm opts env st
  = (with_sampler (snd verdict)
       (with_heap (<[l := with_sampled (fst verdict) span]> (heap st1)) st1),
     (λ ctx', (ctx', l)) <$> ContextWithSpan ctx (Some l)).
Proof.
  intros Hc Hg. unfold Start. rewrite Hc, Hg. cbv zeta.
  fold (started ctx nm opts env st1 l).
  fold (started_params nm (started ctx nm opts env st1 l)).
  by destruct (ShouldSample _ _).
Qed.

Lemma Start_closed ctx nm opts env st :
  closed st = true →
  Start ctx nm opts env st
  = (with_heap (heap st ++ [Span_noop]) st, Some (ctx, length (heap st))).
Proof. unfold Start. by intros ->. Qed.

Lemma started_fields ctx nm opts env st1 l :
  heap st1 !! l = Some Span_zero →
  let span := started ctx nm opts env st1 l in
  tracer span = theTracer ∧ spanID span = generateSpanID env ∧
  noop span = false ∧ ended span = false.
Proof.
  intros Hl. cbv zeta. unfold started, deref. rewrite Hl.
  change (default Span_zero (Some Span_zero)) with Span_zero.
  set (base := with_startTime _ _).
  set (inh := inherit _ _ _ base).
  destruct (foldl_applyOption_fields opts (with_spanID (generateSpanID env) inh))
    as (-> & _ & -> & _ & _ & -> & ->).
  destruct (inherit_fields (SpanFromContext ctx ≫= (λ p, heap st1 !! p))
              (TraceContextFromContext ctx) env base)
    as (Ht & _ & _ & Hn & He).
  cbn. fold inh in Ht, Hn, He. by rewrite Ht, Hn, He.
Qed.

Lemma wf_Start ctx nm opts env st : wf st → wf (fst (Start ctx nm opts env st)).
Proof.
  intros Hwf. destruct (closed st) eqn:Hc.
  - rewrite Start_closed by done. by apply wf_alloc.
  - destruct (getSpan (pick env) st) as [l st1] eqn:Hg.
    rewrite (Start_open _ _ _ _ _ _ _ Hc Hg). cbn [fst].
    destruct (getSpan_spec _ _ _ _ Hwf Hg)
      as (Hwf1 & Hl & Hnp & Hnq & _).
    apply wf_with_sampler, wf_update; try done.
    + by eapply lookup_lt_Some.
    + intros q Hch Hin. by destruct (Hnq q Hch).
Qed.

Lemma wf_step st o : wf st → wf (step st o).
Proof.
  intros Hwf. destruct o as [ctx nm opts env|l m|l now| |]; cbn [step].
  - by apply wf_Start.
  - apply wf_on_span; [done|apply mutate_pooled_ok|apply mutate_queued_ok].
  - by apply wf_End.
  - by apply wf_asyncWorker_step.
  - by apply wf_Close.
Qed.

Lemma wf_run ops : ∀ st, wf st → wf (run st ops).
Proof.
  induction ops as [|o ops IH]; intros st Hwf; [done|].
  cbn. by apply IH, wf_step.
Qed.

Lemma wf_New opts st : New opts = Some st → wf st.
Proof.
  unfold New. destruct (AsyncExport _).
  - destruct (_ <? 0); [done|]. intros [= <-]. split; cbn; try done.
    + constructor.
    + intros l Hl. by apply elem_of_nil in Hl.
    + intros q [= <-]. constructor.
    + intros q l [= <-] Hl. by apply elem_of_nil in Hl.
    + intros c Hc. by apply elem_of_nil in Hc.
  - intros [= <-]. split; cbn; try done.
    + constructor.
    + intros l Hl. by apply elem_of_nil in Hl.
    + intros c Hc. by apply elem_of_nil in Hc.
Qed.

Lemma reachable_wf st : reachable st → wf st.
Proof.
  intros (opts & st0 & ops & Hn & ->). by eapply wf_run, wf_New.
Qed.

Lemma reachable_run st ops : reachable st → reachable (run st ops).
Proof.
  intros (opts & st0 & ops0 & Hn & ->).
  exists opts, st0, (ops0 ++ ops). split; [done|].
  unfold run. by rewrite foldl_app.
Qed.

(** ** Parent linkage *)

Lemma started_ids ctx nm opts env st1 l :
  heap st1 !! l = Some Span_zero →
  let base := inherit (SpanFromContext ctx ≫= (λ p, heap st1 !! p))
                (TraceContextFromContext ctx) env Span_zero in
  traceID (started ctx nm opts env st1 l) = traceID base ∧
  parentID (started ctx nm opts env st1 l) = parentID base.
Proof.
  intros Hl. cbv zeta. unfold started, deref. rewrite Hl.
  change (default Span_zero (Some Span_zero)) with Span_zero.
  set (parent := SpanFromContext ctx ≫= _).
  set (tc := TraceContextFromContext ctx).
  set (base := with_startTime _ _).
  destruct (foldl_applyOption_fields opts
              (with_spanID (generateSpanID env) (inherit parent tc env base)))
    as (_ & -> & _ & -> & _).
  unfold inherit.
  destruct parent as [p|]; [destruct (TraceID_IsValid (traceID p))|];
    try done; (destruct tc as [c|]; [destruct (TraceID_IsValid (tcTraceID c))|]);
    done.
Qed.

(** C4, as the code has it.  In a reachable state of an open tracer,
    [Start] on a non-nil context returns a span [B] with a span ID read
    from the random source.  When the context holds a span [A] with a valid
    trace ID, [B] is another object, with the trace ID of [A] and the span
    ID of [A] as parent.  When the context holds neither a span nor a trace
    context, the trace ID of [B] is the one read from the random source,
    valid if and only if those sixteen bytes are not all zero, and the
    parent ID of [B] is the invalid all-zero one. *)
Theorem start_parent_linkage (st : State) (bindings : list (ctxKey * ctxValue))
    (nm : string) (opts : list SpanOption) (env : Env) :
  reachable st → closed st = false →
  let ctx := valueCtx bindings in
  ∃ st' ctx' b B,
    Start ctx nm opts env st = (st', Some (ctx', b)) ∧
    SpanFromContext ctx' = Some b ∧ heap st' !! b = Some B ∧
    spanID B = generateSpanID env ∧
    (∀ a A, SpanFromContext ctx = Some a → heap st !! a = Some A →
            TraceID_IsValid (traceID A) = true →
            a ≠ b ∧ traceID B = traceID A ∧ parentID B = spanID A) ∧
    (length (randSpanID env) = 8%nat → spanID B = randSpanID env) ∧
    (SpanFromContext ctx = None → TraceContextFromContext ctx = None →
       traceID B = generateTraceID env ∧
       (length (randTraceID env) = 16%nat →
          traceID B = randTraceID env ∧
          TraceID_IsValid (traceID B)
          = bool_decide (randTraceID env ≠ TraceID_zero)) ∧
       parentID B = SpanID_zero ∧ SpanID_IsValid (parentID B) = false).
Proof.
  intros Hwf%reachable_wf Hc ctx.
  destruct (getSpan (pick env) st) as [l st1] eqn:Hg.
  destruct (getSpan_spec _ _ _ _ Hwf Hg)
    as (Hwf1 & Hl & Hnp & Hnq & _ & _ & _ & _ & _ & Hframe & Hold & _).
  rewrite (Start_open ctx _ _ _ _ _ _ Hc Hg). cbv zeta.
  set (span := started ctx nm opts env st1 l).
  set (verdict := ShouldSample _ _).
  destruct (started_fields ctx nm opts env st1 l Hl) as (_ & Hsid & _).
  destruct (started_ids ctx nm opts env st1 l Hl) as (Htid & Hpid).
  fold span in Hsid, Htid, Hpid.
  eexists _, _, l, (with_sampled (fst verdict) span).
  split; [reflexivity|]. split; [reflexivity|]. split.
  { cbn. apply list_lookup_insert_eq. by eapply lookup_lt_Some. }
  split; [done|]. split; [|split].
  - intros a A Ha HA Hv.
    assert (Hne : a ≠ l).
    { intros ->. destruct Hold as (s & Hs & Hz & _); [by eapply lookup_lt_Some|].
      replace s with A in Hz by congruence. by rewrite Hz in Hv. }
    split; [done|]. cbn [traceID parentID with_sampled].
    rewrite Htid, Hpid, Ha. cbn [mbind option_bind].
    rewrite (Hframe a Hne) by (by eapply lookup_lt_Some).
    rewrite HA. unfold inherit. cbn. by rewrite Hv.
  - intros Hlen. transitivity (generateSpanID env); [exact Hsid|].
    by apply copy_full.
  - intros Hs Htc. cbn [traceID parentID with_sampled].
    rewrite Htid, Hpid, Hs, Htc.
    change (traceID (inherit _ _ env Span_zero)) with (generateTraceID env).
    change (parentID (inherit _ _ env Span_zero)) with SpanID_zero.
    split; [done|]. split; [|done].
    intros Hlen. unfold generateTraceID. rewrite copy_full by done.
    done.
Qed.

(** A child started from the context of the first span of the default
    tracer. *)
Lemma start_parent_linkage_witness :
  ∃ st' ctx' b B,
    Start ctx_first "child" [WithStartTime (Some 7)] env1
      (fst (Start Background "op" [] env0 tracer_default))
    = (st', Some (ctx', b)) ∧
    SpanFromContext ctx' = Some b ∧ heap st' !! b = Some B ∧
    spanID B = generateSpanID env1 ∧
    (∀ a A, SpanFromContext ctx_first = Some a →
            heap (fst (Start Background "op" [] env0 tracer_default)) !! a
            = Some A →
            TraceID_IsValid (traceID A) = true →
            a ≠ b ∧ traceID B = traceID A ∧ parentID B = spanID A) ∧
    (length (randSpanID env1) = 8%nat → spanID B = randSpanID env1) ∧
    (SpanFromContext ctx_first = None →
     TraceContextFromContext ctx_first = None →
       traceID B = generateTraceID env1 ∧
       (length (randTraceID env1) = 16%nat →
          traceID B = randTraceID env1 ∧
          TraceID_IsValid (traceID B)
          = bool_decide (randTraceID env1 ≠ TraceID_zero)) ∧
       parentID B = SpanID_zero ∧ SpanID_IsValid (parentID B) = false).
Proof.
  apply (start_parent_linkage
           (fst (Start Background "op" [] env0 tracer_default))
           [(spanContextKey, valSpan (Some 0%nat))] "child"
           [WithStartTime (Some 7)] env1).
  - exists None, tracer_default, [OpStart Background "op" [] env0].
    split; reflexivity.
  - reflexivity.
Defined.

(** C4, counterexample.  A root span started on the empty context of the
    default tracer, when the random source delivers sixteen zero bytes:
    the trace ID of the span is the invalid all-zero one. *)
Lemma start_fresh_trace_id_counterexample :
  New None = Some tracer_default ∧
  SpanFromContext Background = None ∧
  TraceContextFromContext Background = None ∧
  snd (Start Background "op" [] env_zero tracer_default)
  = Some (ctx_first, 0%nat) ∧
  traceID (deref (fst (Start Background "op" [] env_zero tracer_default)) 0)
  = TraceID_zero ∧
  TraceID_IsValid
    (traceID (deref (fst (Start Background "op" [] env_zero tracer_default)) 0))
  = false.
Proof. repeat apply conj; vm_compute; reflexivity. Qed.

(** ** Steps that leave an object alone *)

Lemma untouched_refl l st : untouched l st st.
Proof. split; [done|]. by left. Qed.

Lemma untouched_trans l st1 st2 st3 :
  untouched l st1 st2 → untouched l st2 st3 → untouched l st1 st3.
Proof.
  intros [Hh1 Hc1] [Hh2 Hc2]. split; [congruence|].
  intros c Hc. destruct (Hc2 c Hc) as [H2|H2]; [|by right]. by apply Hc1.
Qed.

Lemma untouched_on_span_ne l l' f st :
  l ≠ l' → untouched l st (on_span l' f st).
Proof.
  intros Hne. unfold on_span. destruct (heap st !! l') as [s|];
    [|apply untouched_refl].
  split; cbn; [by apply list_lookup_insert_ne|]. by left.
Qed.

Lemma untouched_on_span_id l f st s :
  heap st !! l = Some s → f s = s → untouched l st (on_span l f st).
Proof.
  intros Hl Hf. rewrite (on_span_Some _ _ _ _ Hl), Hf.
  split; cbn; [|by left]. by rewrite list_insert_id.
Qed.

Lemma untouched_Export l l' st : l ≠ l' → untouched l st (Exporter_Export l' st).
Proof.
  intros Hne. unfold Exporter_Export.
  destruct (heap st !! l') as [s|]; [|apply untouched_refl].
  split; cbn; [done|].
  intros c [Hin| ->%list_elem_of_singleton]%elem_of_app; [by left|by right].
Qed.

Lemma untouched_Put l l' st : l ≠ l' → untouched l st (spanPool_Put l' st).
Proof.
  intros Hne. split; cbn; [done|].
  intros c [Hin| ->%list_elem_of_singleton]%elem_of_app; [by left|by right].
Qed.

Lemma untouched_releaseSpan l l' st :
  l ≠ l' → untouched l st (releaseSpan l' st).
Proof.
  intros Hne. unfold releaseSpan.
  eapply untouched_trans; [by apply untouched_on_span_ne|].
  by apply untouched_Put.
Qed.

Lemma untouched_exportSpan l l' st :
  l ≠ l' → untouched l st (exportSpan l' st).
Proof.
  intros Hne.
  assert (Hd : untouched l st (releaseSpan l' (Exporter_Export l' st))).
  { eapply untouched_trans; [by apply untouched_Export|].
    by apply untouched_releaseSpan. }
  unfold exportSpan. destruct (asyncCh st) as [q|]; [|done].
  destruct (negb (closed st)); [|done].
  destruct (length q <? asyncCap st)%nat; [|done].
  split; cbn; [done|]. by left.
Qed.

Lemma inert_frozen s : inert s → noop s || ended s = true.
Proof. intros [->|(-> & _)]; [done|apply orb_true_r]. Qed.

Lemma inert_not_pooled s : inert s → pooled_ok s → False.
Proof. intros [Hn|(_ & _ & Ht)] (Ht' & _ & Hn'); congruence. Qed.

Lemma inert_not_queued s : inert s → queued_ok s → False.
Proof. intros [Hn|(_ & Hs & _)] (Hs' & _ & Hn'); congruence. Qed.

Lemma End_inert st l s now :
  heap st !! l = Some s → inert s → End l now st = st.
Proof. unfold End. intros -> Hi%inert_frozen. by rewrite Hi. Qed.

Lemma untouched_End l l' st now :
  l ≠ l' → untouched l st (End l' now st).
Proof.
  intros Hne. unfold End.
  destruct (heap st !! l') as [s'|]; [|apply untouched_refl].
  destruct (noop s' || ended s'); [apply untouched_refl|].
  set (st1 := with_heap _ st).
  assert (H1 : untouched l st st1).
  { split; cbn; [by apply list_lookup_insert_ne|]. by left. }
  destruct (sampled _); [|done]. destruct (tracer _); [done|].
  eapply untouched_trans; [done|]. by apply untouched_exportSpan.
Qed.

Lemma untouched_asyncWorker_step l s st :
  wf st → heap st !! l = Some s → inert s →
  untouched l st (asyncWorker_step st).
Proof.
  intros Hwf Hl Hn. unfold asyncWorker_step.
  destruct (asyncCh st) as [[|l' q]|] eqn:Hch; try apply untouched_refl.
  assert (Hne : l ≠ l').
  { intros <-. destruct (wf_queue st Hwf _ l Hch) as (s' & Hs' & Hok);
      [left|]. replace s' with s in Hok by congruence.
    by apply (inert_not_queued s). }
  eapply untouched_trans; [|by apply untouched_releaseSpan].
  eapply untouched_trans; [|by apply untouched_Export].
  split; cbn; [done|]. by left.
Qed.

Lemma untouched_asyncWorker_drain l s fuel : ∀ st,
  wf st → heap st !! l = Some s → inert s →
  untouched l st (asyncWorker_drain fuel st).
Proof.
  induction fuel as [|fuel IH]; intros st Hwf Hl Hn; [apply untouched_refl|].
  cbn [asyncWorker_drain].
  pose proof (untouched_asyncWorker_step l s st Hwf Hl Hn) as H1.
  eapply untouched_trans; [exact H1|].
  apply IH; [by apply wf_asyncWorker_step| |done].
  destruct H1 as [-> _]. done.
Qed.

Lemma untouched_Close l s st :
  wf st → heap st !! l = Some s → inert s → untouched l st (Close st).
Proof.
  intros Hwf Hl Hn. unfold Close.
  destruct (closed st); [apply untouched_refl|]. cbn.
  assert (H1 : untouched l st (with_closed true st)).
  { split; cbn; [done|]. by left. }
  destruct (asyncCh st) as [q|]; [|done].
  eapply untouched_trans; [exact H1|].
  apply (untouched_asyncWorker_drain l s (length q) (with_closed true st));
    [by apply wf_with_closed|done|done].
Qed.

Lemma untouched_Start l s ctx nm opts env st :
  wf st → heap st !! l = Some s → inert s →
  untouched l st (fst (Start ctx nm opts env st)).
Proof.
  intros Hwf Hl Hn. destruct (closed st) eqn:Hc.
  - rewrite Start_closed by done. split; cbn; [|by left].
    apply lookup_app_l. by eapply lookup_lt_Some.
  - destruct (getSpan (pick env) st) as [l' st1] eqn:Hg.
    rewrite (Start_open _ _ _ _ _ _ _ Hc Hg). cbn [fst].
    destruct (getSpan_spec _ _ _ _ Hwf Hg)
      as (_ & _ & _ & _ & Hcalls & _ & _ & _ & _ & Hframe & Hold & _).
    assert (Hne : l ≠ l').
    { intros <-. destruct Hold as (s' & Hs' & Hok);
        [by eapply lookup_lt_Some|]. replace s' with s in Hok by congruence.
      by apply (inert_not_pooled s). }
    split; cbn.
    + rewrite list_lookup_insert_ne by done.
      apply Hframe; [done|by eapply lookup_lt_Some].
    + rewrite Hcalls. by left.
Qed.

(** An inert span is left alone by whatever the program does. *)
Lemma untouched_step l s st o :
  wf st → heap st !! l = Some s → inert s → untouched l st (step st o).
Proof.
  intros Hwf Hl Hn. destruct o as [ctx nm opts env|l' m|l' now| |]; cbn [step].
  - by apply untouched_Start with s.
  - destruct (decide (l = l')) as [<-|Hne].
    + apply untouched_on_span_id with s; [done|].
      by apply mutate_frozen, inert_frozen.
    + by apply untouched_on_span_ne.
  - destruct (decide (l = l')) as [<-|Hne].
    + rewrite (End_inert _ _ _ _ Hl Hn). apply untouched_refl.
    + by apply untouched_End.
  - by apply untouched_asyncWorker_step with s.
  - by apply untouched_Close with s.
Qed.

Lemma untouched_run l s ops : ∀ st,
  wf st → heap st !! l = Some s → inert s → untouched l st (run st ops).
Proof.
  induction ops as [|o ops IH]; intros st Hwf Hl Hn; [apply untouched_refl|].
  cbn [run foldl].
  pose proof (untouched_step l s st o Hwf Hl Hn) as H1.
  eapply untouched_trans; [exact H1|].
  apply IH; [by apply wf_step| |done].
  destruct H1 as [-> _]. done.
Qed.

(** ** A closed tracer stays closed *)

Lemma closed_on_span l f st : closed (on_span l f st) = closed st.
Proof. unfold on_span. by destruct (heap st !! l). Qed.

Lemma closed_Export l st : closed (Exporter_Export l st) = closed st.
Proof. unfold Exporter_Export. by destruct (heap st !! l). Qed.

Lemma closed_releaseSpan l st : closed (releaseSpan l st) = closed st.
Proof. unfold releaseSpan. cbn. apply closed_on_span. Qed.

Lemma closed_exportSpan l st : closed (exportSpan l st) = closed st.
Proof.
  unfold exportSpan.
  destruct (asyncCh st) as [q|];
    [destruct (negb (closed st)); [destruct (length q <? asyncCap st)%nat|]|];
    rewrite ?closed_releaseSpan, ?closed_Export; done.
Qed.

Lemma closed_End l now st : closed (End l now st) = closed st.
Proof.
  unfold End. destruct (heap st !! l) as [s|]; [|done].
  destruct (noop s || ended s); [done|].
  destruct (sampled _); [|done]. destruct (tracer _); [done|].
  by rewrite closed_exportSpan.
Qed.

Lemma closed_asyncWorker_step st : closed (asyncWorker_step st) = closed st.
Proof.
  unfold asyncWorker_step. destruct (asyncCh st) as [[|l q]|]; try done.
  by rewrite closed_releaseSpan, closed_Export.
Qed.

Lemma closed_asyncWorker_drain fuel : ∀ st,
  closed (asyncWorker_drain fuel st) = closed st.
Proof.
  induction fuel as [|fuel IH]; intros st; [done|].
  cbn. by rewrite IH, closed_asyncWorker_step.
Qed.

Lemma closed_Close st : closed (Close st) = true.
Proof.
  unfold Close. destruct (closed st) eqn:Hc; [done|]. cbn.
  destruct (asyncCh st); [|done]. by rewrite closed_asyncWorker_drain.
Qed.

Lemma closed_step st o : closed st = true → closed (step st o) = true.
Proof.
  intros Hc. destruct o as [ctx nm opts env|l m|l now| |]; cbn [step].
  - by rewrite Start_closed.
  - by rewrite closed_on_span.
  - by rewrite closed_End.
  - by rewrite closed_asyncWorker_step.
  - apply closed_Close.
Qed.

Lemma closed_run ops : ∀ st, closed st = true → closed (run st ops) = true.
Proof.
  induction ops as [|o ops IH]; intros st Hc; [done|].
  cbn. by apply IH, closed_step.
Qed.

(** ** The claim on a closed tracer *)

(** C8.  Once [Close] has been called on a tracer, whatever happens next,
    [Start] returns the context it was given and a new no-op span, not an
    error, calling neither the sampler nor the exporter.  Each of
    [SetAttribute], [SetAttributes], [AddEvent], [SetStatus] and
    [RecordError] leaves a no-op span as it is, and whatever the program
    does from then on, [End] of this span included, the span keeps its
    fields and the exporter and the pool are never called on it. *)
Theorem closed_tracer_noop_span (st : State) (ops ops' : list op)
    (ctx : Context) (nm : string) (opts : list SpanOption) (env : Env)
    (m : mutation) :
  reachable st →
  let st1 := run (Close st) ops in
  let l := length (heap st1) in
  let st2 := fst (Start ctx nm opts env st1) in
  let st3 := run st2 ops' in
  snd (Start ctx nm opts env st1) = Some (ctx, l) ∧
  heap st2 !! l = Some Span_noop ∧
  calls st2 = calls st1 ∧ sampler st2 = sampler st1 ∧
  mutate m Span_noop = Span_noop ∧
  heap st3 !! l = Some Span_noop ∧
  ∀ c, c ∈ calls st3 → call_loc c ≠ l.
Proof.
  intros Hwf%reachable_wf st1 l st2 st3.
  assert (Hwf1 : wf st1) by (by apply wf_run, wf_Close).
  assert (Hc1 : closed st1 = true) by apply closed_run, closed_Close.
  assert (Hl : heap st2 !! l = Some Span_noop).
  { unfold st2. rewrite Start_closed by done. cbn. by apply list_lookup_middle. }
  assert (Hwf2 : wf st2) by (by apply wf_Start).
  destruct (untouched_run l Span_noop ops' st2 Hwf2 Hl (or_introl eq_refl))
    as [Hh Hcalls].
  fold st3 in Hh, Hcalls.
  assert (Hcalls2 : calls st2 = calls st1).
  { unfold st2. by rewrite Start_closed. }
  split; [by rewrite Start_closed|]. split; [exact Hl|].
  split; [exact Hcalls2|].
  split; [unfold st2; by rewrite Start_closed|].
  split; [apply mutate_frozen; reflexivity|].
  split; [by rewrite Hh|].
  intros c Hc. destruct (Hcalls c Hc) as [Hin|Hne]; [|done].
  rewrite Hcalls2 in Hin. apply (wf_calls st1 Hwf1) in Hin. fold l in Hin. lia.
Qed.

(** A span started after [Close], then written to and ended twice. *)
Lemma closed_tracer_noop_span_witness :
  snd (Start Background "late" [WithAttributes [mkAttribute "k" (anyInt 1)]]
         env1 (run (Close (fst (Start Background "op" [] env0 tracer_default)))
                   [OpEnd 0%nat 1200]))
  = Some (Background, 1%nat) ∧
  heap (run (fst (Start Background "late"
                    [WithAttributes [mkAttribute "k" (anyInt 1)]] env1
                    (run (Close (fst (Start Background "op" [] env0
                                        tracer_default)))
                         [OpEnd 0%nat 1200])))
            [OpMutate 1%nat (CallSetStatus StatusError "boom");
             OpEnd 1%nat 1300; OpEnd 1%nat 1400]) !! 1%nat
  = Some Span_noop.
Proof.
  pose proof (closed_tracer_noop_span
    (fst (Start Background "op" [] env0 tracer_default))
    [OpEnd 0%nat 1200]
    [OpMutate 1%nat (CallSetStatus StatusError "boom");
     OpEnd 1%nat 1300; OpEnd 1%nat 1400]
    Background "late" [WithAttributes [mkAttribute "k" (anyInt 1)]] env1
    (CallSetAttribute "k" (anyInt 1))) as Hthm.
  destruct Hthm as (H1 & _ & _ & _ & _ & H2 & _).
  - exists None, tracer_default, [OpStart Background "op" [] env0].
    split; reflexivity.
  - split; [exact H1 | exact H2].
Defined.

(** ** The export pipeline *)

(** The exporter's call followed by the release, as [exportSpan] does them
    on the caller's thread and the worker for each queued span. *)
Lemma export_release st l s :
  heap st !! l = Some s →
  let st' := releaseSpan l (Exporter_Export l st) in
  calls st' = calls st ++ [Export l s; Put l] ∧
  spanPool st' = l :: spanPool st ∧
  heap st' = <[l := Span_zero]> (heap st) ∧
  asyncCh st' = asyncCh st ∧ closed st' = closed st ∧
  asyncCap st' = asyncCap st ∧ sampler st' = sampler st.
Proof.
  intros Hl. cbv zeta. unfold releaseSpan, Exporter_Export. rewrite Hl.
  rewrite (on_span_Some _ l reset s) by done. cbn.
  by rewrite <- app_assoc.
Qed.

Lemma asyncWorker_step_cons st l q s :
  asyncCh st = Some (l :: q) → heap st !! l = Some s →
  let st' := asyncWorker_step st in
  calls st' = calls st ++ [Export l s; Put l] ∧
  spanPool st' = l :: spanPool st ∧
  heap st' = <[l := Span_zero]> (heap st) ∧
  asyncCh st' = Some q ∧ closed st' = closed st ∧
  asyncCap st' = asyncCap st.
Proof.
  intros Hch Hl. cbv zeta. unfold asyncWorker_step. rewrite Hch.
  destruct (export_release (with_asyncCh (Some q) st) l s Hl)
    as (-> & -> & -> & -> & -> & -> & _).
  done.
Qed.

(** The worker taking the spans [q] at the head of the channel: it calls
    the exporter and the pool on them only, and leaves the other objects
    as they are. *)
Lemma asyncWorker_drain_prefix q : ∀ rest st,
  wf st → asyncCh st = Some (q ++ rest) →
  let st' := asyncWorker_drain (length q) st in
  wf st' ∧ asyncCh st' = Some rest ∧
  spanPool st' = rev q ++ spanPool st ∧
  (∃ earlier, calls st' = calls st ++ earlier ∧
              ∀ c, c ∈ earlier → call_loc c ∈ q) ∧
  (∀ l, l ∉ q → heap st' !! l = heap st !! l).
Proof.
  induction q as [|l q IH]; intros rest st Hwf Hch; cbv zeta.
  - cbn. split; [done|]. split; [done|]. split; [done|]. split; [|done].
    exists []. split; [by rewrite app_nil_r|]. intros c Hc.
    by apply elem_of_nil in Hc.
  - cbn [length asyncWorker_drain].
    destruct (wf_queue st Hwf _ l Hch) as (s & Hl & Hok); [left|].
    destruct (asyncWorker_step_cons st l (q ++ rest) s Hch Hl)
      as (Hc1 & Hp1 & Hh1 & Hch1 & _).
    destruct (IH rest (asyncWorker_step st)
                (wf_asyncWorker_step st Hwf) Hch1)
      as (Hwf' & Hch' & Hp' & (earlier & Hc' & Hin') & Hh').
    split; [done|]. split; [done|]. split.
    { rewrite Hp', Hp1. cbn [rev]. by rewrite <- app_assoc. }
    split.
    + exists ([Export l s; Put l] ++ earlier). split.
      * rewrite Hc', Hc1. by rewrite <- app_assoc.
      * intros c [Hc|Hc]%elem_of_app.
        -- apply elem_of_cons in Hc as [->|Hc]; [left|].
           apply list_elem_of_singleton in Hc as ->. left.
        -- right. by apply Hin'.
    + intros l' Hnin. apply not_elem_of_cons in Hnin as [Hne Hnin].
      rewrite (Hh' l' Hnin), Hh1. by apply list_lookup_insert_ne.
Qed.

Lemma asyncWorker_drain_S fuel : ∀ st,
  asyncWorker_drain (S fuel) st = asyncWorker_step (asyncWorker_drain fuel st).
Proof.
  induction fuel as [|fuel IH]; intros st; [done|].
  cbn [asyncWorker_drain] in *. by rewrite IH.
Qed.

Lemma End_live st l s now :
  heap st !! l = Some s → noop s = false → ended s = false →
  let s' := with_endTime (Some now) (with_ended true s) in
  let st1 := with_heap (<[l := s']> (heap st)) st in
  End l now st
  = match sampled s, tracer s with
    | true, theTracer => exportSpan l st1
    | _, _ => st1
    end.
Proof. intros Hl Hn He. unfold End. by rewrite Hl, Hn, He. Qed.

(** [End] of a span the sampler rejected only marks it. *)
Lemma End_unsampled st l s now :
  heap st !! l = Some s → noop s = false → ended s = false →
  sampled s = false →
  End l now st
  = with_heap (<[l := with_endTime (Some now) (with_ended true s)]> (heap st)) st.
Proof. intros Hl Hn He Hs. rewrite (End_live st l s) by done. by rewrite Hs. Qed.

(** [End] of a span that has ended and is not yet released does nothing. *)
Lemma End_ended st l s now :
  heap st !! l = Some s → ended s = true → End l now st = st.
Proof. unfold End. intros -> ->. by rewrite orb_true_r. Qed.

(** ** The claim on the release to the pool *)

(** C7, as the code has it.  [End] of a sampled span of the tracer that has
    not ended hands it to the exporter and then releases it to the pool,
    once: within [End] itself when the tracer has no channel, is closed or
    the channel is full; otherwise [End] queues the span, and the worker
    exports and releases it when it comes to it, after the spans queued
    before.  A second [End] calls neither the exporter nor the pool. *)
Theorem end_sampled_exports_then_releases (st : State) (l : loc) (s : Span)
    (now now2 : Z) :
  reachable st → heap st !! l = Some s →
  noop s = false → ended s = false → sampled s = true →
  tracer s = theTracer →
  let s' := with_endTime (Some now) (with_ended true s) in
  let st' := End l now st in
  let direct :=
    calls st' = calls st ++ [Export l s'; Put l] ∧
    spanPool st' = l :: spanPool st ∧ heap st' !! l = Some (reset s') in
  calls (End l now2 st') = calls st' ∧
  spanPool (End l now2 st') = spanPool st' ∧
  asyncCh (End l now2 st') = asyncCh st' ∧
  match asyncCh st with
  | None => direct
  | Some q =>
      if closed st || (asyncCap st <=? length q)%nat then direct
      else
        calls st' = calls st ∧ spanPool st' = spanPool st ∧
        heap st' !! l = Some s' ∧ asyncCh st' = Some (q ++ [l]) ∧
        let st'' := asyncWorker_drain (S (length q)) st' in
        ∃ earlier,
          calls st'' = calls st ++ earlier ++ [Export l s'; Put l] ∧
          (∀ c, c ∈ earlier → call_loc c ≠ l) ∧
          spanPool st'' = l :: rev q ++ spanPool st ∧
          heap st'' !! l = Some (reset s') ∧ asyncCh st'' = Some []
  end.
Proof.
  intros Hwf%reachable_wf Hl Hn He Hs Ht s' st' direct.
  set (st1 := with_heap (<[l := s']> (heap st)) st).
  assert (Hlt : (l < length (heap st))%nat) by (by eapply lookup_lt_Some).
  assert (Hl1 : heap st1 !! l = Some s') by (by apply list_lookup_insert_eq).
  assert (Hst' : st' = exportSpan l st1).
  { unfold st'. rewrite (End_live st l s) by done. by rewrite Hs, Ht. }
  assert (Hdirect : st' = releaseSpan l (Exporter_Export l st1) →
            direct ∧ calls (End l now2 st') = calls st' ∧
            spanPool (End l now2 st') = spanPool st' ∧
            asyncCh (End l now2 st') = asyncCh st').
  { intros Hd.
    destruct (export_release st1 l s' Hl1) as (Hc & Hp & Hh & _).
    rewrite <- Hd in Hc, Hp, Hh.
    assert (Hl' : heap st' !! l = Some Span_zero).
    { rewrite Hh. apply list_lookup_insert_eq. by eapply lookup_lt_Some. }
    split; [by unfold direct|].
    by rewrite (End_unsampled st' l Span_zero). }
  destruct (asyncCh st) as [q|] eqn:Hch.
  - destruct (closed st || (asyncCap st <=? length q)%nat) eqn:Hfull.
    + assert (Hd : st' = releaseSpan l (Exporter_Export l st1)).
      { rewrite Hst'. unfold exportSpan. cbn [asyncCh closed asyncCap st1 with_heap].
        rewrite Hch. apply orb_true_iff in Hfull as [->|Hle]; [done|].
        destruct (negb (closed st)); [|done].
        apply Nat.leb_le in Hle. by rewrite (proj2 (Nat.ltb_ge _ _) Hle). }
      destruct (Hdirect Hd) as (? & ? & ? & ?). done.
    + apply orb_false_iff in Hfull as [Hc Hcap].
      apply Nat.leb_gt in Hcap.
      assert (Hq : st' = with_asyncCh (Some (q ++ [l])) st1).
      { rewrite Hst'. unfold exportSpan. cbn [asyncCh closed asyncCap st1 with_heap].
        rewrite Hch, Hc. cbn [negb]. by rewrite (proj2 (Nat.ltb_lt _ _) Hcap). }
      assert (Hl' : heap st' !! l = Some s') by (by rewrite Hq).
      rewrite (End_ended st' l s' now2 Hl' eq_refl).
      split; [done|]. split; [done|]. split; [done|].
      split; [by rewrite Hq|]. split; [by rewrite Hq|]. split; [done|].
      split; [by rewrite Hq|]. cbv zeta.
      assert (Hwf' : wf st') by (unfold st'; by apply wf_End).
      assert (Hch' : asyncCh st' = Some (q ++ [l])) by (by rewrite Hq).
      assert (Hnq : l ∉ q).
      { pose proof (wf_queue_NoDup st' Hwf' _ Hch') as Hnd.
        apply NoDup_app in Hnd as (_ & Hd & _). intros Hin.
        apply (Hd l Hin). left. }
      destruct (asyncWorker_drain_prefix q [l] st' Hwf' Hch')
        as (Hwf2 & Hch2 & Hp2 & (earlier & Hc2 & Hin2) & Hh2).
      rewrite asyncWorker_drain_S.
      set (st2 := asyncWorker_drain (length q) st') in *.
      assert (Hl2 : heap st2 !! l = Some s') by (by rewrite (Hh2 l Hnq)).
      destruct (asyncWorker_step_cons st2 l [] s' Hch2 Hl2)
        as (Hc3 & Hp3 & Hh3 & Hch3 & _).
      exists earlier. split; [|split; [|split; [|split]]].
      * rewrite Hc3, Hc2, Hq. cbn. by rewrite <- !app_assoc.
      * intros c Hc' Heq. apply Hnq. rewrite <- Heq. by apply Hin2.
      * rewrite Hp3, Hp2, Hq. done.
      * rewrite Hh3. apply list_lookup_insert_eq. by eapply lookup_lt_Some.
      * done.
  - assert (Hd : st' = releaseSpan l (Exporter_Export l st1)).
    { rewrite Hst'. unfold exportSpan. cbn [asyncCh st1 with_heap].
      by rewrite Hch. }
    destruct (Hdirect Hd) as (? & ? & ? & ?). done.
Qed.

(** The span [Start] returns on an open tracer is live, belongs to the
    tracer, and is sampled as the sampler says. *)
Lemma Start_live ctx nm opts env st l st1 :
  wf st → closed st = false → getSpan (pick env) st = (l, st1) →
  ∃ B, heap (fst (Start ctx nm opts env st)) !! l = Some B ∧
       tracer B = theTracer ∧ noop B = false ∧ ended B = false ∧
       sampled B
       = fst (ShouldSample (sampler st)
                (started_params nm (started ctx nm opts env st1 l))).
Proof.
  intros Hwf Hc Hg.
  destruct (getSpan_spec _ _ _ _ Hwf Hg) as (_ & Hl & _ & _ & _ & Hs & _).
  rewrite (Start_open _ _ _ _ _ _ _ Hc Hg). cbn [fst].
  destruct (started_fields ctx nm opts env st1 l Hl) as (Ht & _ & Hn & He).
  eexists. split.
  { cbn. apply list_lookup_insert_eq. by eapply lookup_lt_Some. }
  cbn. by rewrite Ht, Hn, He, Hs.
Qed.

(** The first span of the default tracer, and of a tracer with a channel
    of capacity 2 followed by one turn of the worker. *)
Lemma end_sampled_exports_then_releases_witness :
  calls (End 0%nat 2000 (fst (Start Background "op" [] env0 tracer_default)))
  = [Export 0%nat
       (with_endTime (Some 2000)
          (with_ended true
             (deref (fst (Start Background "op" [] env0 tracer_default)) 0)));
     Put 0%nat] ∧
  spanPool (End 0%nat 2000 (fst (Start Background "op" [] env0 tracer_default)))
  = [0%nat] ∧
  calls (End 0%nat 2000 (fst (Start Background "op" [] env0 tracer_async)))
  = [] ∧
  calls (asyncWorker_drain 1
           (End 0%nat 2000 (fst (Start Background "op" [] env0 tracer_async))))
  = [Export 0%nat
       (with_endTime (Some 2000)
          (with_ended true
             (deref (fst (Start Background "op" [] env0 tracer_async)) 0)));
     Put 0%nat].
Proof.
  assert (Hsync : reachable (fst (Start Background "op" [] env0 tracer_default))).
  { exists None, tracer_default, [OpStart Background "op" [] env0].
    split; reflexivity. }
  assert (Hasync : reachable (fst (Start Background "op" [] env0 tracer_async))).
  { exists (Some (mkOptions None true 2)), tracer_async,
      [OpStart Background "op" [] env0].
    split; reflexivity. }
  destruct (end_sampled_exports_then_releases
              (fst (Start Background "op" [] env0 tracer_default)) 0%nat
              (deref (fst (Start Background "op" [] env0 tracer_default)) 0)
              2000 3000 Hsync eq_refl eq_refl eq_refl eq_refl eq_refl)
    as (_ & _ & _ & H1 & H2 & _).
  destruct (end_sampled_exports_then_releases
              (fst (Start Background "op" [] env0 tracer_async)) 0%nat
              (deref (fst (Start Background "op" [] env0 tracer_async)) 0)
              2000 3000 Hasync eq_refl eq_refl eq_refl eq_refl eq_refl)
    as (_ & _ & _ & H3 & _ & _ & _ & earlier & H4 & _).
  split; [exact H1|]. split; [exact H2|]. split; [exact H3|].
  vm_compute. reflexivity.
Defined.

(** C7, counterexample.  A span the sampler rejected, on a tracer made with
    [NeverSample]: [End] marks it ended and returns; the pool is never
    called.  Nor is it for the no-op span of a closed tracer. *)
Lemma end_unsampled_not_released_counterexample :
  New (Some (mkOptions (Some NeverSample) false 0)) = Some tracer_never ∧
  snd (Start Background "op" [] env0 tracer_never) = Some (ctx_first, 0%nat) ∧
  sampled (deref (fst (Start Background "op" [] env0 tracer_never)) 0) = false ∧
  ended (deref (End 0%nat 2000 (fst (Start Background "op" [] env0 tracer_never))) 0)
  = true ∧
  spanPool (End 0%nat 2000 (fst (Start Background "op" [] env0 tracer_never)))
  = [] ∧
  calls (End 0%nat 2000 (fst (Start Background "op" [] env0 tracer_never)))
  = [] ∧
  snd (Start Background "late" [] env0 (Close tracer_default))
  = Some (Background, 0%nat) ∧
  spanPool (End 0%nat 2000
              (fst (Start Background "late" [] env0 (Close tracer_default))))
  = [] ∧
  calls (End 0%nat 2000
           (fst (Start Background "late" [] env0 (Close tracer_default))))
  = [].
Proof. repeat apply conj; vm_compute; reflexivity. Qed.

(** ** The claim on the frozen span *)

(** What holds of a span that has ended and is still the caller's: the
    writing methods and [End] do nothing. *)
Lemma ended_span_frozen m s : ended s = true → mutate m s = s.
Proof. intros He. apply mutate_frozen. by rewrite He, orb_true_r. Qed.

(** C3, on the code.  On the default tracer (every span sampled, export on
    the caller's thread) [End] exports the span and releases it, and the
    release resets the object, its [ended] flag included.  The span is not
    frozen: [SetAttribute] and [SetStatus] called after [End] write to the
    object, a second [End] stamps an end time again, and once [Start] has
    taken the object from the pool for another span, the calls made through
    the old pointer write to that span and end it. *)
Theorem end_then_mutate_not_frozen :
  let st := fst (Start Background "op" [] env0 tracer_default) in
  let st1 := End 0%nat 2000 st in
  let st2 := fst (Start Background "next" [] env1 st1) in
  New None = Some tracer_default ∧
  snd (Start Background "op" [] env0 tracer_default) = Some (ctx_first, 0%nat) ∧
  calls st1
  = [Export 0%nat (with_endTime (Some 2000) (with_ended true (deref st 0)));
     Put 0%nat] ∧
  deref st1 0 = Span_zero ∧
  attributes (deref (step st1 (OpMutate 0%nat (CallSetAttribute "k" (anyInt 1)))) 0)
  = [mkAttribute "k" (anyInt 1)] ∧
  status (deref (step st1 (OpMutate 0%nat (CallSetStatus StatusError "late"))) 0)
  = StatusError ∧
  endTime (deref (End 0%nat 3000 st1) 0) = Some 3000 ∧
  snd (Start Background "next" [] env1 st1) = Some (ctx_first, 0%nat) ∧
  name (deref st2 0) = "next" ∧
  attributes (deref (step st2 (OpMutate 0%nat (CallSetAttribute "k" (anyInt 1)))) 0)
  = [mkAttribute "k" (anyInt 1)] ∧
  name <$> (match calls (End 0%nat 3000 st2) with
            | [_; _; Export _ s; _] => Some s
            | _ => None
            end) = Some "next".
Proof. cbv zeta. repeat apply conj; vm_compute; reflexivity. Qed.

(** ** Further properties of the engine *)

(** An unsampled span is frozen by [End], for good.  [End] of a live span
    that the sampler rejected stamps the end time and calls neither the
    exporter nor the pool; if its trace ID is valid then, whatever the
    program does afterwards, the fields of the span stay as [End] left
    them and no call is ever made on it. *)
Theorem unsampled_span_frozen_after_end (st : State) (l : loc) (s : Span)
    (now : Z) (ops : list op) :
  reachable st → heap st !! l = Some s →
  noop s = false → ended s = false → sampled s = false →
  TraceID_IsValid (traceID s) = true →
  let s' := with_endTime (Some now) (with_ended true s) in
  let st' := End l now st in
  heap st' !! l = Some s' ∧ calls st' = calls st ∧
  spanPool st' = spanPool st ∧
  heap (run st' ops) !! l = Some s' ∧
  ∀ c, c ∈ calls (run st' ops) → c ∈ calls st ∨ call_loc c ≠ l.
Proof.
  intros Hwf%reachable_wf Hl Hn He Hs Hv s' st'.
  assert (Hst' : st' = with_heap (<[l := s']> (heap st)) st).
  { unfold st'. by rewrite (End_unsampled st l s). }
  assert (Hl' : heap st' !! l = Some s').
  { rewrite Hst'. cbn. apply list_lookup_insert_eq. by eapply lookup_lt_Some. }
  assert (Hi : inert s').
  { right. split; [done|]. split; [done|]. cbn.
    unfold TraceID_IsValid in Hv. by apply bool_decide_eq_true in Hv. }
  assert (Hwf' : wf st') by (unfold st'; by apply wf_End).
  destruct (untouched_run l s' ops st' Hwf' Hl' Hi) as [Hh Hc].
  split; [done|]. split; [by rewrite Hst'|]. split; [by rewrite Hst'|].
  split; [by rewrite Hh|].
  intros c Hin. destruct (Hc c Hin) as [H1|H1]; [left|by right].
  by rewrite Hst' in H1.
Qed.

(** A rejected span that is ended, written to, ended again, and then
    survives a [Start] and the [Close] of the tracer. *)
Lemma unsampled_span_frozen_after_end_witness :
  heap (run (End 0%nat 2000 (fst (Start Background "op" [] env0 tracer_never)))
          [OpMutate 0%nat (CallSetStatus StatusError "late");
           OpEnd 0%nat 3000;
           OpStart Background "next" [] env1; OpClose]) !! 0%nat
  = Some (with_endTime (Some 2000)
            (with_ended true
               (deref (fst (Start Background "op" [] env0 tracer_never)) 0))).
Proof.
  refine (proj1 (proj2 (proj2 (proj2
    (unsampled_span_frozen_after_end
       (fst (Start Background "op" [] env0 tracer_never)) 0%nat
       (deref (fst (Start Background "op" [] env0 tracer_never)) 0) 2000
       [OpMutate 0%nat (CallSetStatus StatusError "late");
        OpEnd 0%nat 3000;
        OpStart Background "next" [] env1; OpClose]
       _ eq_refl eq_refl eq_refl eq_refl eq_refl))))).
  exists (Some (mkOptions (Some NeverSample) false 0)), tracer_never,
    [OpStart Background "op" [] env0].
  split; reflexivity.
Defined.

(** *** No data of an earlier span in a new one *)

Lemma applyOption_clean s opt :
  attributes (applyOption s opt)
  = attributes s ++ option_attributes [opt] ∧
  events (applyOption s opt) = events s ∧
  status (applyOption s opt) = status s ∧
  statusMsg (applyOption s opt) = statusMsg s ∧
  endTime (applyOption s opt) = endTime s ∧
  name (applyOption s opt) = name s.
Proof. destruct opt; cbn; rewrite ?app_nil_r; repeat split. Qed.

Lemma foldl_applyOption_clean opts : ∀ s,
  attributes (foldl applyOption s opts)
  = attributes s ++ option_attributes opts ∧
  events (foldl applyOption s opts) = events s ∧
  status (foldl applyOption s opts) = status s ∧
  statusMsg (foldl applyOption s opts) = statusMsg s ∧
  endTime (foldl applyOption s opts) = endTime s ∧
  name (foldl applyOption s opts) = name s.
Proof.
  induction opts as [|opt opts IH]; intros s.
  - cbn. by rewrite app_nil_r.
  - cbn [foldl].
    destruct (IH (applyOption s opt)) as (-> & -> & -> & -> & -> & ->).
    destruct (applyOption_clean s opt) as (-> & -> & -> & -> & -> & ->).
    split; [|repeat split].
    unfold option_attributes. cbn [flat_map].
    by rewrite app_nil_r, app_assoc.
Qed.

Lemma inherit_clean parent tc env s :
  attributes (inherit parent tc env s) = attributes s ∧
  events (inherit parent tc env s) = events s ∧
  status (inherit parent tc env s) = status s ∧
  statusMsg (inherit parent tc env s) = statusMsg s ∧
  endTime (inherit parent tc env s) = endTime s ∧
  name (inherit parent tc env s) = name s.
Proof.
  unfold inherit.
  destruct parent as [p|]; [destruct (TraceID_IsValid (traceID p))|];
    try done; (destruct tc as [c|]; [destruct (TraceID_IsValid (tcTraceID c))|]);
    done.
Qed.

(** Whatever object the pool hands out, and whatever its earlier tenant
    held, the span that [Start] returns on an open tracer has the name it
    was given, the attributes of its options and nothing else: no event,
    no status, no end time. *)
Theorem start_span_is_clean (st : State) (bindings : list (ctxKey * ctxValue))
    (nm : string) (opts : list SpanOption) (env : Env) :
  reachable st → closed st = false →
  ∃ st' ctx' b B,
    Start (valueCtx bindings) nm opts env st = (st', Some (ctx', b)) ∧
    heap st' !! b = Some B ∧ name B = nm ∧
    attributes B = option_attributes opts ∧ events B = [] ∧
    status B = StatusUnset ∧ statusMsg B = "" ∧ endTime B = None ∧
    ended B = false ∧ noop B = false.
Proof.
  intros Hwf%reachable_wf Hc.
  destruct (getSpan (pick env) st) as [l st1] eqn:Hg.
  destruct (getSpan_spec _ _ _ _ Hwf Hg) as (_ & Hl & _).
  rewrite (Start_open (valueCtx bindings) _ _ _ _ _ _ Hc Hg). cbv zeta.
  destruct (started_fields (valueCtx bindings) nm opts env st1 l Hl)
    as (_ & _ & Hn & He).
  set (verdict := ShouldSample _ _).
  eexists _, _, l, _. split; [reflexivity|]. split.
  { cbn. apply list_lookup_insert_eq. by eapply lookup_lt_Some. }
  cbn [name attributes events status statusMsg endTime ended noop with_sampled].
  rewrite Hn, He. unfold started, deref. rewrite Hl.
  change (default Span_zero (Some Span_zero)) with Span_zero.
  set (base := with_startTime _ _).
  set (parent := SpanFromContext _ ≫= _).
  set (tc := TraceContextFromContext _).
  destruct (foldl_applyOption_clean opts
              (with_spanID (generateSpanID env) (inherit parent tc env base)))
    as (-> & -> & -> & -> & -> & ->).
  destruct (inherit_clean parent tc env base) as (Ha & Hev & Hs & Hm & Ht & Hnm).
  cbn [attributes events status statusMsg endTime name with_spanID].
  rewrite Ha, Hev, Hs, Hm, Ht, Hnm. repeat split.
Qed.

(** A span started in the object of a span that had an attribute and an
    event. *)
Lemma start_span_is_clean_witness :
  ∃ st' ctx' b B,
    Start Background "next" [WithAttributes [mkAttribute "k" (anyInt 1)]] env1
      (run tracer_default
         [OpStart Background "op" [] env0;
          OpMutate 0%nat (CallSetAttribute "old" (anyString "data"));
          OpMutate 0%nat (CallAddEvent "e" [] 1100);
          OpEnd 0%nat 2000])
    = (st', Some (ctx', b)) ∧
    heap st' !! b = Some B ∧ name B = "next" ∧
    attributes B = [mkAttribute "k" (anyInt 1)] ∧ events B = [] ∧
    status B = StatusUnset ∧ statusMsg B = "" ∧ endTime B = None ∧
    ended B = false ∧ noop B = false.
Proof.
  apply (start_span_is_clean
           (run tracer_default
              [OpStart Background "op" [] env0;
               OpMutate 0%nat (CallSetAttribute "old" (anyString "data"));
               OpMutate 0%nat (CallAddEvent "e" [] 1100);
               OpEnd 0%nat 2000])
           [] "next" [WithAttributes [mkAttribute "k" (anyInt 1)]] env1).
  - exists None, tracer_default,
      [OpStart Background "op" [] env0;
       OpMutate 0%nat (CallSetAttribute "old" (anyString "data"));
       OpMutate 0%nat (CallAddEvent "e" [] 1100);
       OpEnd 0%nat 2000].
    split; reflexivity.
  - reflexivity.
Defined.

(** *** The example of the specification *)

(** The header [00-4bf92f3577b34da6a3ce929d0e0e4736-00f067aa0ba902b7-01]
    parses to that trace ID and span ID with the sampled flag set; the same
    header with version [01] is refused with [ErrInvalidContext]. *)
Theorem w3c_concrete_scenario {U : Unicode} :
  ParseW3CTraceparent example_header = Ok example_tc ∧
  TraceID_String (tcTraceID example_tc) = "4bf92f3577b34da6a3ce929d0e0e4736" ∧
  SpanID_String (tcSpanID example_tc) = "00f067aa0ba902b7" ∧
  IsSampled example_tc = true ∧
  ParseW3CTraceparent version01_header = Err ErrInvalidContext.
Proof.
  split; [exact (Parse_Format example_tc eq_refl eq_refl)|].
  split; [reflexivity|]. split; [reflexivity|]. split; [reflexivity|].
  apply Parse_rejected. vm_compute. discriminate.
Qed.

(** *** Injection followed by extraction *)

Lemma IsSampled_SetSampled tc : TraceFlags tc = x00 →
  IsSampled (SetSampled true tc) = true.
Proof. unfold IsSampled, SetSampled. cbn. by intros ->. Qed.

(** What [Inject] writes for a span with a valid trace ID, [Extract] reads
    back from a map carrier: a trace context with the trace ID and span ID
    of the span, sampled as the span is, and with the carrier's
    [tracestate]. *)
Theorem inject_extract_roundtrip {U : Unicode} (st : State)
    (bindings bindings' : list (ctxKey * ctxValue)) (l : loc) (span : Span)
    (carrier : gmap string string) :
  SpanFromContext (valueCtx bindings) = Some l → heap st !! l = Some span →
  length (traceID span) = 16%nat → length (spanID span) = 8%nat →
  TraceID_IsValid (traceID span) = true →
  ∃ ctx' tc,
    W3CPropagator_Extract (valueCtx bindings')
      (W3CPropagator_Inject st (valueCtx bindings) carrier) = Some ctx' ∧
    TraceContextFromContext ctx' = Some tc ∧
    tcTraceID tc = traceID span ∧ tcSpanID tc = spanID span ∧
    IsSampled tc = sampled span ∧
    TraceState tc = default "" (carrier !! W3CTracestateHeader).
Proof.
  intros Hctx Hl Ht Hs Hv. unfold W3CPropagator_Inject.
  rewrite Hctx. cbn [mbind option_bind]. rewrite Hl, Hv. cbn [negb].
  set (tc0 := {| tcTraceID := traceID span; tcSpanID := spanID span;
                 TraceFlags := x00; TraceState := "" |}).
  set (tc1 := if sampled span then SetSampled true tc0 else tc0).
  assert (Ht1 : tcTraceID tc1 = traceID span) by (unfold tc1; by destruct (sampled span)).
  assert (Hs1 : tcSpanID tc1 = spanID span) by (unfold tc1; by destruct (sampled span)).
  assert (Hf1 : IsSampled tc1 = sampled span) by (unfold tc1; by destruct (sampled span)).
  unfold W3CPropagator_Extract.
  cbn [Carrier_Get Carrier_Set MapCarrier].
  rewrite lookup_insert_eq. cbn [default from_option id].
  rewrite Format_nonempty, Parse_Format by congruence.
  rewrite lookup_insert_ne by done.
  eexists _, _. split; [reflexivity|]. split; [reflexivity|]. cbn.
  by rewrite Ht1, Hs1, <- Hf1.
Qed.

(** The first span of the default tracer through a map carrier. *)
Lemma inject_extract_roundtrip_witness :
  ∃ ctx' tc,
    W3CPropagator_Extract (U := unicode_untouched) Background
      (W3CPropagator_Inject
         (fst (Start Background "op" [] env0 tracer_default)) ctx_first
         ({[ "tracestate" := "vendor=1" ]} : gmap string string)) = Some ctx' ∧
    TraceContextFromContext ctx' = Some tc ∧
    tcTraceID tc
    = traceID (deref (fst (Start Background "op" [] env0 tracer_default)) 0) ∧
    tcSpanID tc
    = spanID (deref (fst (Start Background "op" [] env0 tracer_default)) 0) ∧
    IsSampled tc
    = sampled (deref (fst (Start Background "op" [] env0 tracer_default)) 0) ∧
    TraceState tc
    = default "" (({[ "tracestate" := "vendor=1" ]} : gmap string string)
                    !! W3CTracestateHeader).
Proof.
  apply (inject_extract_roundtrip (U := unicode_untouched)
           (fst (Start Background "op" [] env0 tracer_default))
           [(spanContextKey, valSpan (Some 0%nat))] [] 0%nat
           (deref (fst (Start Background "op" [] env0 tracer_default)) 0));
    reflexivity.
Defined.
